(** * bpp-popgen: the GeneMapper CSV importer and the sequence statistics

    A shallow embedding of [Pop/GeneMapperCsvExport.cpp] (the importer
    [GeneMapperCsvExport::read]) and of the statistics declared in
    [Pop/SequenceStatistics.h], with the properties of the specification
    stated and settled against them. *)

From Stdlib Require Import Ascii String ZArith QArith Qreals Reals Lia Psatz.
From Stdlib Require Import Sorted.
From stdpp Require Import base strings list gmap pretty.

Open Scope string_scope.
Open Scope list_scope.
Open Scope nat_scope.

(** ** Exceptions and the two monads of the importer *)

(** The error kinds of the library.  [GeneMapperCsvExport::read] throws the
    [IOException] itself; the other ones come out of the collaborating
    classes. *)
Inductive Exception : Type :=
  | IOException (msg : string)
  | MissingColumnError (col : string)
  | LookupError (name : string)
  | IndexError (pos : nat)
  | InconsistentContainerError
  | UndefinedStatisticError.

(** A call that either throws or returns. *)
Definition Res (A : Type) : Type := (Exception + A)%type.

#[global] Instance Res_ret : MRet Res := λ A x, inr x.
#[global] Instance Res_bind : MBind Res := λ A B f r,
  match r with
  | inl e => inl e
  | inr x => f x
  end.

(** ** Text and vector tools *)

Module TextTools.

(** Modelled from the spec: [TextTools::toString] is not in the source
    files; the decimal writing of the occurrence counter.  The [int] counter
    of the importer counts rows of the table and never goes below zero, so
    it is read as a natural number. *)
Definition toString (n : nat) : string := pretty n.

Definition isBlank (c : ascii) : bool :=
  bool_decide (c = " "%char) || bool_decide (c = "010"%char)
  || bool_decide (c = "009"%char).

(** Modelled from the spec: [TextTools::isEmpty] is not in the source
    files; an allele cell without a call, that is a cell with nothing in it
    but blank characters. *)
Fixpoint isEmpty (s : string) : bool :=
  match s with
  | EmptyString => true
  | String c s' => isBlank c && isEmpty s'
  end.

(** Modelled from the spec: [TextTools::count] is not in the source files;
    the substring count that detects the allele columns, the number of
    places where [pattern] starts in [s]. *)
Fixpoint count (s pattern : string) : nat :=
  match s with
  | EmptyString => 0
  | String _ s' =>
      (if String.prefix pattern s then 1 else 0) + count s' pattern
  end.

End TextTools.

Module VectorTools.
Section Vec.
Context {A : Type} `{EqDecision A}.

(** Modelled from the spec: [VectorTools::unique] is not in the source
    files; the specification asks for the distinct values in order of
    first appearance. *)
Fixpoint unique (v : list A) : list A :=
  match v with
  | [] => []
  | x :: v' => x :: filter (λ y, y ≠ x) (unique v')
  end.

(** Modelled from the spec: [VectorTools::which] is not in the source
    files; the first position of [x]; [None] stands for its exception. *)
Definition which (v : list A) (x : A) : option nat :=
  fst <$> list_find (λ y, y = x) v.

(** The positions of [x] in [v], counted from [i]. *)
Fixpoint positions_from (i : nat) (v : list A) (x : A) : list nat :=
  match v with
  | [] => []
  | y :: v' =>
      if decide (y = x) then i :: positions_from (S i) v' x
      else positions_from (S i) v' x
  end.

(** Modelled from the spec: [VectorTools::whichAll] is not in the source
    files; every position of [x], the rows that belong to a marker; [None]
    stands for the exception when there is none. *)
Definition whichAll (v : list A) (x : A) : option (list nat) :=
  match positions_from 0 v x with
  | [] => None
  | w => Some w
  end.
End Vec.
End VectorTools.

(** ** The data table *)

(** Modelled from the spec: the class [DataTable] is not in the source
    files; a table read with a header row, the column names and the data
    rows in the order of the file.  The table is rectangular ([wf_table]). *)
Record DataTable : Type := mkDataTable {
  colNames : list string;
  rows : list (list string)
}.

Definition wf_table (dt : DataTable) : Prop :=
  Forall (λ r, length r = length (colNames dt)) (rows dt).

(** The cell of a row at a column; a rectangular table never reaches the
    default. *)
Definition cell (r : list string) (j : nat) : string := default "" (r !! j).

(** [dt(i, j)]. *)
Definition dt_at (dt : DataTable) (i j : nat) : string :=
  cell (default [] (rows dt !! i)) j.

(** The position of a column name; a name that is absent from the header is
    the missing-column error. *)
Definition colIndex (dt : DataTable) (name : string) : Res nat :=
  match VectorTools.which (colNames dt) name with
  | Some j => inr j
  | None => inl (MissingColumnError name)
  end.

Definition column (dt : DataTable) (j : nat) : list string :=
  (λ r, cell r j) <$> rows dt.

(** [dt.getColumn(name)]. *)
Definition getColumn (dt : DataTable) (name : string) : Res (list string) :=
  j ← colIndex dt name; mret (column dt j).

(** ** Fixing the duplicated individual names (lines 109-117)

    One turn of the loop on a row: [ic] and [mc] are the positions that the
    names "Sample Name" and "Marker" resolve to, [st] is the map
    [indname_marker]. *)
Definition fix_row (ic mc : nat) (st : gmap string nat) (r : list string)
  : list string * gmap string nat :=
  let test_lab := cell r ic +:+ cell r mc in
  let r' :=
    match st !! test_lab with
    | Some c => <[ic := cell r ic +:+ "_" +:+ TextTools.toString (c + 1)]> r
    | None => r
    end in
  (r', <[test_lab := S (default 0 (st !! test_lab))]> st).

Fixpoint fix_rows (ic mc : nat) (st : gmap string nat) (rs : list (list string))
  : list (list string) :=
  match rs with
  | [] => []
  | r :: rs' =>
      let '(r', st') := fix_row ic mc st r in
      r' :: fix_rows ic mc st' rs'
  end.

Definition fix_names (ic mc : nat) (dt : DataTable) : DataTable :=
  {| colNames := colNames dt; rows := fix_rows ic mc ∅ (rows dt) |}.

(** ** The dataset

    The classes [DataSet], [Group], [Individual], [AnalyzedLoci] and
    [LocusInfo] are declared outside the two source files; the importer only
    calls them.  Their state is modelled here as the specification describes
    it: groups of individuals, a locus registry with locus-scoped allele keys
    (the position of the allele in its locus), and one genotype slot per
    locus for an individual whose genotype storage was created. *)

Record LocusInfo : Type := mkLocusInfo {
  locus_name : string;
  locus_alleles : list string
}.

Abbreviation AnalyzedLoci := (list (option LocusInfo)) (only parsing).

(** The allele keys of a [MultiAlleleMonolocusGenotype]. *)
Abbreviation MonolocusGenotype := (list nat) (only parsing).

Record Individual : Type := mkIndividual {
  ind_id : string;
  ind_genotype : option (list (option MonolocusGenotype))
}.

Record Group : Type := mkGroup {
  group_id : nat;
  group_individuals : list Individual
}.

Record DataSet : Type := mkDataSet {
  analyzedLoci : option AnalyzedLoci;
  groups : list Group
}.

(** [new DataSet()]. *)
Definition emptyDataSet : DataSet := {| analyzedLoci := None; groups := [] |}.

Definition hasGenotype (ind : Individual) : bool :=
  match ind_genotype ind with Some _ => true | None => false end.

Definition of_option {A : Type} (e : Exception) (o : option A) : Res A :=
  match o with
  | Some x => inr x
  | None => inl e
  end.

Module LocusOps.

(** Modelled from the spec: [LocusInfo::addAlleleInfo] is not in the source
    files; a label that recurs under the same locus keeps its first
    registration. *)
Definition addAlleleInfo (id : string) (li : LocusInfo) : LocusInfo :=
  if decide (id ∈ locus_alleles li) then li
  else {| locus_name := locus_name li;
          locus_alleles := locus_alleles li ++ [id] |}.

(** Modelled from the spec: [LocusInfo::getAlleleInfoKey] is not in the
    source files; the key of a label is its position in the locus, and an
    unregistered label is a look-up error. *)
Definition getAlleleInfoKey (id : string) (li : LocusInfo) : Res nat :=
  of_option (LookupError id) (VectorTools.which (locus_alleles li) id).

Definition named (name : string) (o : option LocusInfo) : Prop :=
  locus_name <$> o = Some name.

#[global] Instance named_dec name o : Decision (named name o).
Proof. unfold named. apply _. Defined.

(** Modelled from the spec: [AnalyzedLoci::setLocusInfo] is not in the
    source files; it fills the slot of a locus. *)
Definition setLocusInfo (i : nat) (li : LocusInfo) (al : AnalyzedLoci)
  : Res AnalyzedLoci :=
  if decide (i < length al) then inr (<[i := Some li]> al)
  else inl (IndexError i).

(** Modelled from the spec: [AnalyzedLoci::getLocusInfoPosition] is not in
    the source files; look-up of the position of a locus by its name. *)
Definition getLocusInfoPosition (name : string) (al : AnalyzedLoci) : Res nat :=
  of_option (LookupError name) (fst <$> list_find (named name) al).

(** Modelled from the spec: [AnalyzedLoci::getLocusInfoByName] is not in
    the source files; look-up of a locus by its name. *)
Definition getLocusInfoByName (name : string) (al : AnalyzedLoci) : Res LocusInfo :=
  match list_find (named name) al with
  | Some (_, Some li) => inr li
  | _ => inl (LookupError name)
  end.

(** Modelled from the spec: [AnalyzedLoci::addAlleleInfoByLocusName] is not
    in the source files; the allele is registered under the locus of that
    name. *)
Definition addAlleleInfoByLocusName (name id : string) (al : AnalyzedLoci)
  : Res AnalyzedLoci :=
  match list_find (named name) al with
  | Some (i, Some li) => inr (<[i := Some (addAlleleInfo id li)]> al)
  | _ => inl (LookupError name)
  end.

End LocusOps.

Module DataSetOps.

Definition same_id (id : string) (ind : Individual) : Prop := ind_id ind = id.

#[global] Instance same_id_dec id ind : Decision (same_id id ind).
Proof. unfold same_id. apply _. Defined.

(** Modelled from the spec: [DataSet::initAnalyzedLoci] is not in the
    source files; it reserves the slots of the loci. *)
Definition initAnalyzedLoci (n : nat) (d : DataSet) : Res DataSet :=
  inr {| analyzedLoci := Some (replicate n None); groups := groups d |}.

(** Modelled from the spec: [DataSet::addEmptyGroup] is not in the source
    files; group creation. *)
Definition addEmptyGroup (id : nat) (d : DataSet) : Res DataSet :=
  inr {| analyzedLoci := analyzedLoci d;
         groups := groups d ++ [ {| group_id := id; group_individuals := [] |} ] |}.

(** Modelled from the spec: [DataSet::getGroupPosition] is not in the
    source files; the position of the group with an identifier. *)
Definition getGroupPosition (id : nat) (d : DataSet) : Res nat :=
  of_option (LookupError "group")
    (fst <$> list_find (λ g, group_id g = id) (groups d)).

Definition getGroup (g : nat) (d : DataSet) : Res Group :=
  of_option (IndexError g) (groups d !! g).

Definition setGroup (g : nat) (grp : Group) (d : DataSet) : DataSet :=
  {| analyzedLoci := analyzedLoci d; groups := <[g := grp]> (groups d) |}.

(** Modelled from the spec: [DataSet::addIndividualToGroup] is not in the
    source files; individual insertion into the group at a position. *)
Definition addIndividualToGroup (g : nat) (ind : Individual) (d : DataSet)
  : Res DataSet :=
  grp ← getGroup g d;
  mret (setGroup g {| group_id := group_id grp;
                      group_individuals := group_individuals grp ++ [ind] |} d).

(** Modelled from the spec: [DataSet::setAnalyzedLoci] is not in the source
    files; locus registration with names and allele registries. *)
Definition setAnalyzedLoci (al : AnalyzedLoci) (d : DataSet) : Res DataSet :=
  inr {| analyzedLoci := Some al; groups := groups d |}.

Definition getAnalyzedLoci (d : DataSet) : Res AnalyzedLoci :=
  of_option (LookupError "analyzed loci") (analyzedLoci d).

(** [DataSet::getLocusInfoByName]. *)
Definition getLocusInfoByName (name : string) (d : DataSet) : Res LocusInfo :=
  al ← getAnalyzedLoci d; LocusOps.getLocusInfoByName name al.

(** Modelled from the spec: [DataSet::getIndividualByIdFromGroup] is not in
    the source files; look-up of an individual by its name. *)
Definition getIndividualByIdFromGroup (g : nat) (id : string) (d : DataSet)
  : Res Individual :=
  grp ← getGroup g d;
  of_option (LookupError id)
    (snd <$> list_find (same_id id) (group_individuals grp)).

(** Modelled from the spec: [DataSet::getIndividualPositionInGroup] is not
    in the source files; look-up of the position of an individual by its
    name. *)
Definition getIndividualPositionInGroup (g : nat) (id : string) (d : DataSet)
  : Res nat :=
  grp ← getGroup g d;
  of_option (LookupError id)
    (fst <$> list_find (same_id id) (group_individuals grp)).

Definition setIndividual (g p : nat) (grp : Group) (ind : Individual)
    (d : DataSet) : DataSet :=
  setGroup g {| group_id := group_id grp;
                group_individuals := <[p := ind]> (group_individuals grp) |} d.

(** Modelled from the spec: [DataSet::initIndividualGenotypeInGroup] is not
    in the source files; it creates the genotype storage of an individual,
    one empty slot per locus. *)
Definition initIndividualGenotypeInGroup (g p : nat) (d : DataSet) : Res DataSet :=
  grp ← getGroup g d;
  ind ← of_option (IndexError p) (group_individuals grp !! p);
  al ← getAnalyzedLoci d;
  mret (setIndividual g p grp
          {| ind_id := ind_id ind;
             ind_genotype := Some (replicate (length al) None) |} d).

(** Modelled from the spec: [DataSet::setIndividualMonolocusGenotypeInGroup]
    is not in the source files; it writes the genotype of an individual at
    a locus, in a storage that was created. *)
Definition setIndividualMonolocusGenotypeInGroup (g p l : nat)
    (ma : MonolocusGenotype) (d : DataSet) : Res DataSet :=
  grp ← getGroup g d;
  ind ← of_option (IndexError p) (group_individuals grp !! p);
  gt ← of_option (LookupError (ind_id ind)) (ind_genotype ind);
  if decide (l < length gt) then
    mret (setIndividual g p grp
            {| ind_id := ind_id ind;
               ind_genotype := Some (<[l := Some ma]> gt) |} d)
  else inl (IndexError l).

End DataSetOps.

(** ** The importer's monad: the destination dataset, and its mutations

    [read] works on the dataset it is given.  The state of a run is that
    dataset together with the list of the mutating calls made on it so far,
    in order; a call that throws leaves both as they are. *)

Inductive Event : Type :=
  | EvInitAnalyzedLoci (n : nat)
  | EvAddEmptyGroup (id : nat)
  | EvAddIndividual (g : nat) (id : string)
  | EvSetAnalyzedLoci (al : AnalyzedLoci)
  | EvInitGenotype (g p : nat)
  | EvSetGenotype (g p l : nat) (ma : MonolocusGenotype).

Record World : Type := mkWorld {
  ds : DataSet;
  trace : list Event
}.

Definition M (A : Type) : Type := World → Res A * World.

#[global] Instance M_ret : MRet M := λ A x w, (inr x, w).
#[global] Instance M_bind : MBind M := λ A B f m w,
  match m w with
  | (inl e, w') => (inl e, w')
  | (inr x, w') => f x w'
  end.

Definition throw {A : Type} (e : Exception) : M A := λ w, (inl e, w).

(** A call that does not touch the dataset. *)
Definition lift {A : Type} (r : Res A) : M A := λ w, (r, w).

(** A [const] method of the dataset. *)
Definition query {A : Type} (f : DataSet → Res A) : M A := λ w, (f (ds w), w).

(** A mutating method of the dataset. *)
Definition update (ev : Event) (f : DataSet → Res DataSet) : M unit := λ w,
  match f (ds w) with
  | inl e => (inl e, w)
  | inr d => (inr tt, {| ds := d; trace := trace w ++ [ev] |})
  end.

Fixpoint forM_ {A : Type} (l : list A) (body : A → M unit) : M unit :=
  match l with
  | [] => mret tt
  | x :: l' => body x;; forM_ l' body
  end.

Fixpoint M_foldl {A B : Type} (f : B → A → M B) (b : B) (l : list A) : M B :=
  match l with
  | [] => mret b
  | x :: l' => b' ← f b x; M_foldl f b' l'
  end.

Fixpoint Res_foldl {A B : Type} (f : B → A → Res B) (b : B) (l : list A) : Res B :=
  match l with
  | [] => mret b
  | x :: l' => b' ← f b x; Res_foldl f b' l'
  end.

(** ** [GeneMapperCsvExport::read] *)

Module GeneMapperCsvExport.
Import TextTools VectorTools.

(** Lines 158-161: the positions of the columns whose name has "Allele ". *)
Fixpoint alleles_cols_from (i : nat) (col_names : list string) : list nat :=
  match col_names with
  | [] => []
  | n :: ns =>
      if decide (count n "Allele " = 0) then alleles_cols_from (S i) ns
      else i :: alleles_cols_from (S i) ns
  end.

(** Lines 163-169: the locus of each marker, and the rows of each marker. *)
Fixpoint loci_info_from (marker_col : list string) (i : nat)
    (markers : list string) (al : AnalyzedLoci) (alleles_pos : list (list nat))
  : Res (AnalyzedLoci * list (list nat)) :=
  match markers with
  | [] => mret (al, alleles_pos)
  | m :: ms =>
      al' ← LocusOps.setLocusInfo i (mkLocusInfo m []) al;
      v ← of_option (LookupError m) (whichAll marker_col m);
      loci_info_from marker_col (S i) ms al' (alleles_pos ++ [v])
  end.

(** Lines 172-177: the labels of a column in the rows of a marker. *)
Definition m_allele (dt : DataTable) (pos : list nat) (c : nat) : list string :=
  unique (filter (λ s, s ≠ "") ((λ k, dt_at dt k c) <$> pos)).

(** Lines 182-183. *)
Definition register_marker (dt : DataTable) (c : nat) (al : AnalyzedLoci)
    (mp : string * list nat) : Res AnalyzedLoci :=
  match m_allele dt mp.2 c with
  | [] => mret al
  | a :: _ => LocusOps.addAlleleInfoByLocusName mp.1 a al
  end.

(** Lines 170-185. *)
Definition register_alleles (dt : DataTable) (alleles_cols : list nat)
    (markers : list string) (alleles_pos : list (list nat)) (al : AnalyzedLoci)
  : Res AnalyzedLoci :=
  Res_foldl
    (λ al c, Res_foldl (register_marker dt c) al (zip markers alleles_pos))
    al alleles_cols.

(** Lines 194-201: one more allele column of a row. *)
Definition allele_key (r : list string) (mark_col_index : nat)
    (alleles : list nat) (c : nat) : M (list nat) :=
  if isEmpty (cell r c) then mret alleles
  else
    li ← query (DataSetOps.getLocusInfoByName (cell r mark_col_index));
    num ← lift (LocusOps.getAlleleInfoKey (cell r c) li);
    mret ((alleles ++ [num])%list).

(** Lines 206-207: the genotype storage of the individual of a row. *)
Definition init_genotype (name : string) : M unit :=
  ind ← query (DataSetOps.getIndividualByIdFromGroup 0 name);
  if hasGenotype ind then mret tt
  else
    p ← query (DataSetOps.getIndividualPositionInGroup 0 name);
    update (EvInitGenotype 0 p) (DataSetOps.initIndividualGenotypeInGroup 0 p).

(** Lines 208-209: the genotype of the individual at the marker of a row. *)
Definition set_genotype (name marker : string) (ma : MonolocusGenotype) : M unit :=
  match ma with
  | [] => mret tt
  | _ :: _ =>
      p ← query (DataSetOps.getIndividualPositionInGroup 0 name);
      al ← query DataSetOps.getAnalyzedLoci;
      l ← lift (LocusOps.getLocusInfoPosition marker al);
      update (EvSetGenotype 0 p l ma)
        (DataSetOps.setIndividualMonolocusGenotypeInGroup 0 p l ma)
  end.

(** Lines 193-210: one row of the genotype assembly. *)
Definition read_row (ind_col_index mark_col_index : nat)
    (alleles_cols : list nat) (r : list string) : M unit :=
  alleles ← M_foldl (allele_key r mark_col_index) [] alleles_cols;
  let alleles := unique alleles in
  let ma : MonolocusGenotype := alleles in
  init_genotype (cell r ind_col_index);;
  set_genotype (cell r ind_col_index) (cell r mark_col_index) ma.

(** Lines 147-151. *)
Definition add_individual (name : string) : M unit :=
  g ← query (DataSetOps.getGroupPosition 0);
  update (EvAddIndividual g name)
    (DataSetOps.addIndividualToGroup g (mkIndividual name None)).

(** [read(istream &, DataSet &)]: [None] is a stream that could not be
    opened, [Some dt] the table that [DataTable::read] gets out of it.
    [ic] and [mc] are the columns that [dt(i, "Sample Name")] and
    [dt(i, "Marker")] resolve to.  The value [ind_count] of line 120 is
    never used and is left out, and so is the output on [cerr]. *)
Definition read (stream : option DataTable) : M unit :=
  match stream with
  | None => throw (IOException "GeneMapperCsvExport::read: fail to open stream.")
  | Some dt =>
      (* lines 100-108 *)
      lift (getColumn dt "Sample Name");;
      markers ← lift (getColumn dt "Marker");
      (* lines 109-118 *)
      ic ← lift (colIndex dt "Sample Name");
      mc ← lift (colIndex dt "Marker");
      let dt := fix_names ic mc dt in
      ind_names ← lift (getColumn dt "Sample Name");
      (* lines 121-123 *)
      let ind_names := unique ind_names in
      let markers := unique markers in
      let loc_nbr := length markers in
      (* line 142 *)
      update (EvInitAnalyzedLoci loc_nbr) (DataSetOps.initAnalyzedLoci loc_nbr);;
      (* lines 147-151 *)
      update (EvAddEmptyGroup 0) (DataSetOps.addEmptyGroup 0);;
      forM_ ind_names add_individual;;
      (* lines 156-186 *)
      let al : AnalyzedLoci := replicate (length markers) None in
      let col_names := colNames dt in
      let alleles_cols := alleles_cols_from 0 col_names in
      marker_col ← lift (getColumn dt "Marker");
      '(al, alleles_pos) ← lift (loci_info_from marker_col 0 markers al []);
      al ← lift (register_alleles dt alleles_cols markers alleles_pos al);
      update (EvSetAnalyzedLoci al) (DataSetOps.setAnalyzedLoci al);;
      (* lines 191-210 *)
      ind_col_index ← lift (of_option (LookupError "Sample Name")
                              (which (colNames dt) "Sample Name"));
      mark_col_index ← lift (of_option (LookupError "Marker")
                               (which (colNames dt) "Marker"));
      forM_ (rows dt) (read_row ind_col_index mark_col_index alleles_cols)
  end.

(** [read(istream &)], which imports into a new dataset. *)
Definition read_new (stream : option DataTable) : Res unit * World :=
  read stream {| ds := emptyDataSet; trace := [] |}.

End GeneMapperCsvExport.

(** The names of the individuals and of the loci that a dataset holds. *)
Definition individual_names (d : DataSet) : list string :=
  g ← groups d; ind_id <$> group_individuals g.

Definition registry (d : DataSet) : AnalyzedLoci := default [] (analyzedLoci d).

(** The names of the slots of a registry. *)
Definition names_of (al : AnalyzedLoci) : list (option string) :=
  (λ o : option LocusInfo, locus_name <$> o) <$> al.

Definition locus_names (d : DataSet) : list (option string) :=
  names_of (registry d).


(** ** The sequence statistics

    [Pop/SequenceStatistics.h] declares the statistics and documents their
    formulas; their bodies are in a file that is not among the sources.  They
    are modelled from the specification and from the documentation of the
    header, on exact rational numbers in place of [double]. *)

Module SequenceStatistics.
Import VectorTools.

(** The state of a gap in the alphabets of the sequence library. *)
Definition gap : Z := (-1)%Z.

(** A site: its position in the alignment and one symbol per sequence. *)
Record Site : Type := mkSite {
  site_position : Z;
  site_symbols : list Z
}.

(** The aligned site matrix of a [PolymorphismSequenceContainer]. *)
Record PolymorphismSequenceContainer : Type := mkPSC {
  nbSequences : nat;
  psc_sites : list Site
}.

(** Every site has one symbol per sequence. *)
Definition aligned (psc : PolymorphismSequenceContainer) : bool :=
  forallb (λ s, length (site_symbols s) =? nbSequences psc) (psc_sites psc).

Definition Qnat (n : nat) : Q := inject_Z (Z.of_nat n).

(** The sum of [f] over a list. *)
Definition Qsum {X : Type} (f : X → Q) (l : list X) : Q :=
  foldr (λ x acc, f x + acc)%Q 0%Q l.

(** The number of sequences with the state [x] at a site. *)
Definition count_state (x : Z) (symbols : list Z) : nat :=
  length (filter (λ y, y = x) symbols).

(** The symbols of a site that count under the gap policy.  The header
    documents the flag: [gapflag] is [true] "if you don't want to take gap
    into account", and otherwise gaps are considered as mutations. *)
Definition observed (gapflag : bool) (s : Site) : list Z :=
  if gapflag then filter (λ x, x ≠ gap) (site_symbols s) else site_symbols s.

(** The distinct states of a site under the gap policy. *)
Definition states (gapflag : bool) (s : Site) : list Z :=
  unique (observed gapflag s).

(** A polymorphic site has at least two distinct states. *)
Definition isPolymorphic (gapflag : bool) (s : Site) : bool :=
  bool_decide (2 ≤ length (states gapflag s)).

Definition polymorphic_sites (psc : PolymorphismSequenceContainer)
    (gapflag : bool) : list Site :=
  filter (λ s, isPolymorphic gapflag s) (psc_sites psc).

(** The error policy of the statistics: a container that mixes sequences of
    different lengths is a recoverable error. *)
Definition checked {A : Type} (psc : PolymorphismSequenceContainer) (v : A)
  : Res A :=
  if aligned psc then inr v else inl InconsistentContainerError.

(** Modelled from the spec: the body of [polymorphicSiteNumber] is not in
    the source files; the number of sites with at least two distinct
    states, the gaps being left out or counted as a state. *)
Definition polymorphicSiteNumber (psc : PolymorphismSequenceContainer)
    (gapflag : bool) : Res nat :=
  checked psc (length (polymorphic_sites psc gapflag)).

(** Modelled from the spec: the body of [_getMutationNumber] is not in the
    source files; the number of states of a site minus one, and zero when
    no state is observed. *)
Definition _getMutationNumber (symbols : list Z) : nat :=
  pred (length (unique symbols)).

(** Modelled from the spec: the body of [totNumberMutations] is not in the
    source files; the sum of the mutation counts of the sites, on the
    symbols that count under the gap policy. *)
Definition totNumberMutations (psc : PolymorphismSequenceContainer)
    (gapflag : bool) : Res nat :=
  checked psc
    (foldr (λ s acc, _getMutationNumber (observed gapflag s) + acc) 0
       (psc_sites psc)).

(** The loop [for (i = start; ...; i++) acc += f(i)], [k] turns. *)
Fixpoint sum_loop (f : nat → Q) (i k : nat) (acc : Q) : Q :=
  match k with
  | 0 => acc
  | S k' => sum_loop f (S i) k' (acc + f i)%Q
  end.

Record UsefullValues : Type := mkUsefullValues {
  a1 : Q; a2 : Q; a1n : Q; b1 : Q; b2 : Q;
  c1 : Q; c2 : Q; cn : Q; dn : Q; e1 : Q; e2 : Q
}.

(** Modelled from the spec: the body of [_getUsefullValues] is not in the
    source files; the eleven values with the formulas that the header
    documents (lines 711-739), the sums computed by a loop. *)
Definition _getUsefullValues (n : nat) : UsefullValues :=
  let nq := Qnat n in
  let a1 := sum_loop (λ i, 1 / Qnat i)%Q 1 (n - 1) 0%Q in
  let a2 := sum_loop (λ i, 1 / (Qnat i * Qnat i))%Q 1 (n - 1) 0%Q in
  let a1n := sum_loop (λ i, 1 / Qnat i)%Q 1 n 0%Q in
  let b1 := ((nq + 1) / (3 * (nq - 1)))%Q in
  let b2 := ((2 * (nq * nq + nq + 3)) / (9 * nq * (nq - 1)))%Q in
  let c1 := (b1 - 1 / a1)%Q in
  let c2 := (b2 - (nq + 2) / (a1 * nq) + a2 / (a1 * a1))%Q in
  let cn := (2 * (nq * a1 - 2 * (nq - 1)) / ((nq - 1) * (nq - 2)))%Q in
  let dn := (cn + (nq - 2) / ((nq - 1) * (nq - 1))
             + 2 / (nq - 1)
               * ((3 # 2) - (2 * a1n - 3) / (nq - 2) - 1 / nq))%Q in
  let e1 := (c1 / a1)%Q in
  let e2 := (c2 / (a1 * a1 + a2))%Q in
  mkUsefullValues a1 a2 a1n b1 b2 c1 c2 cn dn e1 e2.

(** Modelled from the spec: the body of [watterson75] is not in the source
    files; the number of polymorphic sites over [a1]. *)
Definition watterson75 (psc : PolymorphismSequenceContainer) (gapflag : bool)
  : Res Q :=
  let n := nbSequences psc in
  S ← polymorphicSiteNumber psc gapflag;
  let values := _getUsefullValues n in
  mret (Qnat S / a1 values)%Q.

(** The heterozygosity of a site: one minus the sum of [k (k - 1)] over
    the states, over [n (n - 1)]. *)
Definition heterozygosity (gapflag : bool) (s : Site) : Q :=
  let obs := observed gapflag s in
  let ni := Qnat (length obs) in
  (1 - Qsum (λ x, let k := Qnat (count_state x obs) in k * (k - 1))
         (unique obs)
       / (ni * (ni - 1)))%Q.

(** Modelled from the spec: the body of [tajima83] is not in the source
    files; the heterozygosity summed over the polymorphic sites. *)
Definition tajima83 (psc : PolymorphismSequenceContainer) (gapflag : bool)
  : Res Q :=
  checked psc (Qsum (heterozygosity gapflag) (polymorphic_sites psc gapflag)).

(** The value of a Tajima test, [tajima_num / sqrt tajima_radicand]: the
    square root has no rational value, so the two parts are kept. *)
Record TajimaD : Type := mkTajimaD {
  tajima_num : Q;
  tajima_radicand : Q
}.

Definition TajimaD_value (d : TajimaD) : R :=
  (Q2R (tajima_num d) / sqrt (Q2R (tajima_radicand d)))%R.

(** The radicand [e1 m + e2 m (m - 1)] of the denominator, for [m]
    mutations among [n] sequences. *)
Definition variance (n m : nat) : Q :=
  let values := _getUsefullValues n in
  (e1 values * Qnat m + e2 values * Qnat m * (Qnat m - 1))%Q.

(** The ratio, or the computational error when the test is undefined: at
    most one polymorphic site, or a denominator that is not positive. *)
Definition tajima_ratio (S : nat) (num radicand : Q) : Res TajimaD :=
  if (S <=? 1) || Qle_bool radicand 0 then inl UndefinedStatisticError
  else inr {| tajima_num := num; tajima_radicand := radicand |}.

(** Modelled from the spec: the body of [tajimaDSS] is not in the source
    files; the test on the number of polymorphic sites. *)
Definition tajimaDSS (psc : PolymorphismSequenceContainer) (gapflag : bool)
  : Res TajimaD :=
  S ← polymorphicSiteNumber psc gapflag;
  tajima ← tajima83 psc gapflag;
  watterson ← watterson75 psc gapflag;
  let n := nbSequences psc in
  tajima_ratio S (tajima - watterson)%Q (variance n S).

(** Modelled from the spec: the body of [tajimaDTNM] is not in the source
    files; the same test on the total number of mutations. *)
Definition tajimaDTNM (psc : PolymorphismSequenceContainer) (gapflag : bool)
  : Res TajimaD :=
  S ← polymorphicSiteNumber psc gapflag;
  eta ← totNumberMutations psc gapflag;
  tajima ← tajima83 psc gapflag;
  let n := nbSequences psc in
  let values := _getUsefullValues n in
  tajima_ratio S (tajima - Qnat eta / a1 values)%Q (variance n eta).

(** *** The container for the linkage disequilibrium *)

(** The more frequent of the two alleles of a site, the first encountered
    one when they are as frequent, and the other one. *)
Definition major_minor (symbols : list Z) : option (Z * Z) :=
  match unique symbols with
  | [a; b] =>
      if count_state a symbols <? count_state b symbols then Some (b, a)
      else Some (a, b)
  | _ => None
  end.

(** The site with 1 for the allele [a] and 0 for the other one. *)
Definition recode (a : Z) (s : Site) : Site :=
  {| site_position := site_position s;
     site_symbols := (λ x, if decide (x = a) then 1%Z else 0%Z) <$> site_symbols s |}.

(** The site for the container, when it is kept: no gap, two alleles, the
    rarer one in more than one sequence unless singletons are kept, and
    with a frequency of at least [freqmin]. *)
Definition ld_site (n : nat) (keepsingleton : bool) (freqmin : Q) (s : Site)
  : option Site :=
  if decide (gap ∈ site_symbols s) then None
  else
    match major_minor (site_symbols s) with
    | None => None
    | Some (a, b) =>
        let k := count_state b (site_symbols s) in
        if negb keepsingleton && (k =? 1) then None
        else if Qle_bool freqmin (Qnat k / Qnat n) then Some (recode a s)
        else None
    end.

(** Modelled from the spec: the body of [generateLDContainer] is not in the
    source files; it keeps the sites with exactly two alleles, filtered by
    the two options, and recodes them; a container whose sites do not all
    have one symbol per sequence is an error. *)
Definition generateLDContainer (psc : PolymorphismSequenceContainer)
    (keepsingleton : bool) (freqmin : Q) : Res PolymorphismSequenceContainer :=
  checked psc
    {| nbSequences := nbSequences psc;
       psc_sites := omap (ld_site (nbSequences psc) keepsingleton freqmin)
                      (psc_sites psc) |}.

End SequenceStatistics.

(** Alignments used as concrete inputs. *)

(** One site, two sequences: a nucleotide and a gap. *)
Definition psc_gap : SequenceStatistics.PolymorphismSequenceContainer :=
  SequenceStatistics.mkPSC 2 [SequenceStatistics.mkSite 1 [0; -1]%Z].

(** Four sequences: a site with two alleles, one with three, a constant one,
    one with a gap. *)
Definition psc_four : SequenceStatistics.PolymorphismSequenceContainer :=
  SequenceStatistics.mkPSC 4
    [SequenceStatistics.mkSite 1 [0; 1; 1; 1]%Z;
     SequenceStatistics.mkSite 2 [0; 1; 2; 2]%Z;
     SequenceStatistics.mkSite 3 [3; 3; 3; 3]%Z;
     SequenceStatistics.mkSite 4 [0; -1; 1; 1]%Z;
     SequenceStatistics.mkSite 5 [2; 2; 3; 3]%Z].

(** ** Tables used as concrete inputs *)

Definition header1 : list string := ["Sample Name"; "Marker"; "Allele 1"].

(** Two calls of the same sample at the same marker. *)
Definition tbl_duplicate : DataTable :=
  {| colNames := header1; rows := [ ["S"; "M"; "A"]; ["S"; "M"; "A"] ] |}.

(** Two samples with two labels at one marker, in one allele column. *)
Definition tbl_two_labels : DataTable :=
  {| colNames := header1; rows := [ ["s1"; "M"; "A"]; ["s2"; "M"; "B"] ] |}.

(** One sample without any call. *)
Definition tbl_no_call : DataTable :=
  {| colNames := header1; rows := [ ["s"; "M"; ""] ] |}.

(** One sample, one marker, one allele. *)
Definition tbl_single : DataTable :=
  {| colNames := header1; rows := [ ["s"; "M"; "A"] ] |}.

(** A duplicated call next to a sample that already has the suffixed name. *)
Definition tbl_collision : DataTable :=
  {| colNames := header1;
     rows := [ ["a"; "M"; "A"]; ["a"; "M"; "A"]; ["a_2"; "M"; "A"] ] |}.

(** A table whose header has no "Marker". *)
Definition tbl_no_marker : DataTable :=
  {| colNames := ["Sample Name"; "Allele 1"]; rows := [ ["s"; "A"] ] |}.

(** A dataset that already holds a group, to import into. *)
Definition ds_used : DataSet :=
  {| analyzedLoci := Some [Some (mkLocusInfo "L" ["x"])];
     groups := [ {| group_id := 7;
                    group_individuals := [mkIndividual "old" None] |} ] |}.


(** ** Predicates and abbreviations used in the statements *)

Definition new_locus (m : string) : option LocusInfo := Some (mkLocusInfo m []).

(** While the markers of [done] were visited in the turn of one allele
    column: every locus has at most [S k] alleles, and the loci of the
    markers that were not visited yet still have at most [k]. *)
Definition bounded (k : nat) (done : list string) (al : AnalyzedLoci) : Prop :=
  ∀ li, Some li ∈ al →
    length (locus_alleles li) ≤ S k
    ∧ (locus_name li ∉ done → length (locus_alleles li) ≤ k).


(** A property of the state that a computation keeps, whether it returns or
    throws. *)
Definition preserves {A : Type} (P : World → Prop) (m : M A) : Prop :=
  ∀ w, P w → P (m w).2.


(** The pieces of a run of [read] on a table whose header has "Sample Name"
    at [ic] and "Marker" at [mc]: the distinct names after the fix of the
    duplicates, the distinct markers, the allele columns, and the state when
    the genotype assembly starts in a new dataset. *)
Definition ind_names_of (dt : DataTable) (ic mc : nat) : list string :=
  VectorTools.unique (column (fix_names ic mc dt) ic).

Definition markers_of (dt : DataTable) (mc : nat) : list string :=
  VectorTools.unique (column dt mc).

Definition allele_columns (dt : DataTable) : list nat :=
  GeneMapperCsvExport.alleles_cols_from 0 (colNames dt).

Definition new_individual (name : string) : Individual := mkIndividual name None.

Definition loaded (names markers : list string) (al : AnalyzedLoci) : World :=
  {| ds := {| analyzedLoci := Some al;
              groups := [ {| group_id := 0;
                             group_individuals := new_individual <$> names |} ] |};
     trace := [EvInitAnalyzedLoci (length markers); EvAddEmptyGroup 0]
              ++ (EvAddIndividual 0 <$> names) ++ [EvSetAnalyzedLoci al] |}.

(** The number of times that the genotype storage of the individual at
    position [p] of group [g] was created, in a list of mutating calls. *)
Definition is_init (g p : nat) (e : Event) : bool :=
  match e with
  | EvInitGenotype g' p' => bool_decide (g' = g ∧ p' = p)
  | _ => false
  end.

Definition inits_of (g p : nat) (tr : list Event) : nat :=
  length (filter (λ e, is_init g p e) tr).

(** The number of times that a genotype was written for that individual. *)
Definition is_set (g p : nat) (e : Event) : bool :=
  match e with
  | EvSetGenotype g' p' _ _ => bool_decide (g' = g ∧ p' = p)
  | _ => false
  end.

Definition sets_of (g p : nat) (tr : list Event) : nat :=
  length (filter (λ e, is_set g p e) tr).

(** A genotype that is written has at least one allele key, and goes to a
    locus of the registry. *)
Definition set_ok (nloci : nat) (e : Event) : Prop :=
  match e with
  | EvSetGenotype g p l ma => ma ≠ [] ∧ l < nloci
  | _ => True
  end.

(** A dataset with the registry [al] and the individuals [inds] in its only
    group, group 0. *)
Definition shape (al : AnalyzedLoci) (inds : list Individual) : DataSet :=
  {| analyzedLoci := Some al; groups := [mkGroup 0 inds] |}.

(** The state during the genotype assembly: one group 0 with the named
    individuals, a fixed registry; the storage of an individual was created
    once if it has one and never otherwise; the individuals of the rows read
    so far ([seen]) have their storage. *)
Definition assembling (names : list string) (al : AnalyzedLoci)
    (seen : list string) (w : World) : Prop :=
  ∃ inds,
    ds w = shape al inds
    ∧ ind_id <$> inds = names
    ∧ (∀ p ind, inds !! p = Some ind →
         inits_of 0 p (trace w) = if hasGenotype ind then 1 else 0)
    ∧ (∀ p, length inds ≤ p → inits_of 0 p (trace w) = 0)
    ∧ (∀ ind, ind ∈ inds → ind_id ind ∈ seen → hasGenotype ind = true)
    ∧ Forall (set_ok (length al)) (trace w).

(** ** More of the importer: notions for its loops *)

(** The key of a row in the map [indname_marker] (line 111): the sample name
    and the marker, joined with nothing in between. *)
Definition row_key (ic mc : nat) (r : list string) : string :=
  cell r ic +:+ cell r mc.

(** The number of rows with a key. *)
Definition occurrences (ic mc : nat) (key : string) (rs : list (list string)) : nat :=
  length (filter (λ r, row_key ic mc r = key) rs).

(** The map [indname_marker] after the turns of the loop on some rows. *)
Definition counted (ic mc : nat) (st : gmap string nat) (rs : list (list string))
  : gmap string nat :=
  foldl (λ st r, (fix_row ic mc st r).2) st rs.

(** The name that line 113 gives to the occurrence after [k] earlier ones. *)
Definition suffixed (name : string) (k : nat) : string :=
  if decide (k = 0) then name else name +:+ "_" +:+ TextTools.toString (k + 1).

(** A duplicated call of [n] at [m], and a sample that is called [n_2]. *)
Definition tbl_suffix_clash (n m : string) : DataTable :=
  {| colNames := ["Sample Name"; "Marker"];
     rows := [ [n; m]; [n; m]; [n +:+ "_2"; m] ] |}.

(** Two samples whose names and markers differ but join to the same key. *)
Definition tbl_joined_key : DataTable :=
  {| colNames := header1; rows := [ ["ab"; "c"; "A"]; ["a"; "bc"; "A"] ] |}.

(** Three calls of one sample at one marker, among other rows. *)
Definition tbl_three_calls : DataTable :=
  {| colNames := header1;
     rows := [ ["S"; "M"; "A"]; ["T"; "M"; "A"]; ["S"; "M"; "A"];
               ["S"; "N"; "A"]; ["S"; "M"; "A"] ] |}.

(** The calls of a column at a marker: the cells of the column, in the rows
    of the marker, that are not the empty text (lines 172-176). *)
Definition marker_labels (dt : DataTable) (mc : nat) (m : string) (c : nat)
  : list string :=
  filter (λ s, s ≠ "")
    ((λ r, cell r c) <$> filter (λ r, cell r mc = m) (rows dt)).

(** The one label that line 183 registers for a column at a marker. *)
Definition first_label (dt : DataTable) (mc : nat) (m : string) (c : nat)
  : option string :=
  head (marker_labels dt mc m c).

(** Lines 156-185 on a table: the registry that [read] builds. *)
Definition built_registry (dt : DataTable) (mc : nat) : Res AnalyzedLoci :=
  let markers := markers_of dt mc in
  '(al, alleles_pos) ← GeneMapperCsvExport.loci_info_from (column dt mc) 0 markers
                          (replicate (length markers) None) [];
  GeneMapperCsvExport.register_alleles dt (allele_columns dt) markers
    alleles_pos al.

(** A registry that holds, for each locus, the first labels of the columns
    [cols], each one once. *)
Definition registers (dt : DataTable) (mc : nat) (cols : list nat)
    (al : AnalyzedLoci) : Prop :=
  ∀ li, Some li ∈ al →
    NoDup (locus_alleles li)
    ∧ ∀ a, a ∈ locus_alleles li
           ↔ ∃ c, c ∈ cols ∧ first_label dt mc (locus_name li) c = Some a.

(** The same while the markers [done] were visited for one more column [c]. *)
Definition registers_upto (dt : DataTable) (mc : nat) (cols : list nat) (c : nat)
    (done : list string) (al : AnalyzedLoci) : Prop :=
  ∀ li, Some li ∈ al →
    NoDup (locus_alleles li)
    ∧ ∀ a, a ∈ locus_alleles li
           ↔ (∃ c', c' ∈ cols ∧ first_label dt mc (locus_name li) c' = Some a)
             ∨ (locus_name li ∈ done
                ∧ first_label dt mc (locus_name li) c = Some a).

(** The individuals that a dataset holds. *)
Definition individuals (d : DataSet) : list Individual :=
  g ← groups d; group_individuals g.

(** The calls of a row are all registered under the locus of its marker:
    what the loop of lines 195-201 needs to return. *)
Definition row_ok (al : AnalyzedLoci) (mc : nat) (cols : list nat)
    (r : list string) : Prop :=
  ∀ c, c ∈ cols → TextTools.isEmpty (cell r c) = false →
    ∃ li, LocusOps.getLocusInfoByName (cell r mc) al = inr li
          ∧ cell r c ∈ locus_alleles li.

(** A call of a row on which the loop of lines 195-201 throws [e]. *)
Definition bad_cell (al : AnalyzedLoci) (mc : nat) (cols : list nat)
    (r : list string) (e : Exception) : Prop :=
  ∃ c, c ∈ cols ∧ TextTools.isEmpty (cell r c) = false
       ∧ (LocusOps.getLocusInfoByName (cell r mc) al = inl e
          ∨ ∃ li, LocusOps.getLocusInfoByName (cell r mc) al = inr li
                  ∧ (cell r c ∉ locus_alleles li)
                  ∧ e = LookupError (cell r c)).

(** A genotype at a locus of the registry: some keys, each one once, each
    the position of an allele of the locus. *)
Definition genotype_ok (al : AnalyzedLoci) (l : nat) (ma : list nat) : Prop :=
  ma ≠ [] ∧ NoDup ma
  ∧ ∃ li, al !! l = Some (Some li)
          ∧ Forall (λ k, k < length (locus_alleles li)) ma.

(** The keys of the calls of a row, in a locus (lines 195-201). *)
Definition row_keys (li : LocusInfo) (cols : list nat) (r : list string)
  : list nat :=
  omap (λ c, if TextTools.isEmpty (cell r c) then None
             else VectorTools.which (locus_alleles li) (cell r c)) cols.

(** A genotype in the slot [l] of the individual [id] comes from a row that
    was read: a row of that individual, at the marker of the locus of the
    slot, whose calls are registered; the genotype holds the keys of the
    calls, each one once. *)
Definition slot_ok (al : AnalyzedLoci) (ic mc : nat) (cols : list nat)
    (seen : list (list string)) (id : string) (l : nat) (ma : list nat) : Prop :=
  ∃ r li,
    r ∈ seen ∧ cell r ic = id
    ∧ al !! l = Some (Some li) ∧ locus_name li = cell r mc
    ∧ (∀ c, c ∈ cols → TextTools.isEmpty (cell r c) = false →
            cell r c ∈ locus_alleles li)
    ∧ ma = VectorTools.unique (row_keys li cols r) ∧ ma ≠ [].

(** The genotype storage of an individual, when it has one: a slot per
    locus, and in each slot that was written a genotype from a row. *)
Definition storage_ok (al : AnalyzedLoci) (ic mc : nat) (cols : list nat)
    (seen : list (list string)) (ind : Individual) : Prop :=
  ∀ gt, ind_genotype ind = Some gt →
    length gt = length al
    ∧ ∀ l ma, gt !! l = Some (Some ma) →
        slot_ok al ic mc cols seen (ind_id ind) l ma.

(** The state of the genotype assembly after the rows [seen], with the
    storage of the individuals. *)
Definition assembled (names : list string) (al : AnalyzedLoci) (ic mc : nat)
    (cols : list nat) (seen : list (list string)) (w : World) : Prop :=
  ∃ inds,
    ds w = shape al inds ∧ ind_id <$> inds = names
    ∧ Forall (storage_ok al ic mc cols seen) inds.

(** Every call of the table is the first call of some allele column at its
    marker. *)
Definition calls_registered (dt : DataTable) (mc : nat) : Prop :=
  ∀ r, r ∈ rows dt → ∀ c, c ∈ allele_columns dt →
    TextTools.isEmpty (cell r c) = false →
    ∃ c', c' ∈ allele_columns dt
          ∧ first_label dt mc (cell r mc) c' = Some (cell r c).
(** ** Facts about the tools *)

Section VectorFacts.
Context {A : Type} `{EqDecision A}.
Implicit Types (v : list A) (x : A).

Lemma elem_of_unique v x : x ∈ VectorTools.unique v ↔ x ∈ v.
Proof.
  induction v as [|y v IH]; simpl; [done|].
  rewrite !elem_of_cons, list_elem_of_filter, IH.
  destruct (decide (x = y)); tauto.
Qed.

Lemma NoDup_unique v : NoDup (VectorTools.unique v).
Proof.
  induction v as [|y v IH]; simpl; [constructor|].
  constructor; [|by apply NoDup_filter].
  rewrite list_elem_of_filter. intros [Hne _]. by apply Hne.
Qed.

Lemma filter_all (P : A → Prop) `{∀ y, Decision (P y)} v :
  Forall P v → filter P v = v.
Proof.
  induction 1 as [|y v Hy _ IH]; [done|].
  by rewrite filter_cons_True, IH.
Qed.

Lemma unique_NoDup v : NoDup v → VectorTools.unique v = v.
Proof.
  induction 1 as [|y v Hy _ IH]; simpl; [done|].
  rewrite IH. f_equal. apply filter_all.
  apply Forall_forall. intros z Hz ->. done.
Qed.

Lemma which_None v x : VectorTools.which v x = None ↔ x ∉ v.
Proof.
  unfold VectorTools.which. rewrite fmap_None, list_find_None, Forall_forall.
  split; [intros H Hx; by apply (H x)|intros H y Hy ->; done].
Qed.

Lemma which_Some v x i : VectorTools.which v x = Some i → v !! i = Some x.
Proof.
  unfold VectorTools.which. intros H.
  apply fmap_Some in H as [[j y] [H ->]].
  apply list_find_Some in H as (H & -> & _). done.
Qed.

Lemma which_is_Some v x : x ∈ v → is_Some (VectorTools.which v x).
Proof.
  intros H. destruct (VectorTools.which v x) eqn:E; [eauto|].
  by apply which_None in E.
Qed.
End VectorFacts.

(** ** Facts about the importer's monad *)

Section MonadFacts.
Context {A B : Type}.
Implicit Types (w : World) (m : M A) (f : A → M B).

Lemma bind_inr m f w x w' : m w = (inr x, w') → (m ≫= f) w = f x w'.
Proof. intros H. unfold mbind, M_bind. by rewrite H. Qed.

Lemma bind_inl m f w e w' : m w = (inl e, w') → (m ≫= f) w = (inl e, w').
Proof. intros H. unfold mbind, M_bind. by rewrite H. Qed.

Lemma bind_lift (r : Res A) f w :
  (lift r ≫= f) w = match r with inl e => (inl e, w) | inr x => f x w end.
Proof. by destruct r. Qed.

Lemma bind_query (q : DataSet → Res A) f w :
  (query q ≫= f) w
  = match q (ds w) with inl e => (inl e, w) | inr x => f x w end.
Proof. unfold mbind, M_bind, query. by destruct (q (ds w)). Qed.
End MonadFacts.

Lemma bind_update {B : Type} ev (u : DataSet → Res DataSet) (f : unit → M B) w :
  (update ev u ≫= f) w
  = match u (ds w) with
    | inl e => (inl e, w)
    | inr d => f tt {| ds := d; trace := trace w ++ [ev] |}
    end.
Proof. unfold mbind, M_bind, update. by destruct (u (ds w)). Qed.

Section Preserves.
Context (P : World → Prop).

Lemma preserves_ret {A : Type} (x : A) : preserves P (mret x).
Proof. by intros w. Qed.

Lemma preserves_lift {A : Type} (r : Res A) : preserves P (lift r).
Proof. by intros w. Qed.

Lemma preserves_query {A : Type} (q : DataSet → Res A) : preserves P (query q).
Proof. by intros w. Qed.

Lemma preserves_bind {A B : Type} (m : M A) (f : A → M B) :
  preserves P m → (∀ x, preserves P (f x)) → preserves P (m ≫= f).
Proof.
  intros Hm Hf w Hw. unfold mbind, M_bind.
  specialize (Hm w Hw). destruct (m w) as [[e|x] w']; [done|].
  by apply Hf.
Qed.

Lemma preserves_update ev (u : DataSet → Res DataSet) :
  (∀ w d, P w → u (ds w) = inr d → P {| ds := d; trace := trace w ++ [ev] |}) →
  preserves P (update ev u).
Proof.
  intros H w Hw. unfold update.
  destruct (u (ds w)) eqn:E; [done|]. by apply H.
Qed.

Lemma preserves_forM {A : Type} (l : list A) (body : A → M unit) :
  (∀ x, preserves P (body x)) → preserves P (forM_ l body).
Proof.
  intros H. induction l as [|x l IH]; simpl.
  - apply preserves_ret.
  - apply preserves_bind; [apply H|done].
Qed.

Lemma preserves_foldl {A B : Type} (f : B → A → M B) (l : list A) b :
  (∀ b x, preserves P (f b x)) → preserves P (M_foldl f b l).
Proof.
  intros H. revert b. induction l as [|x l IH]; intros b; simpl.
  - apply preserves_ret.
  - apply preserves_bind; [apply H|done].
Qed.
End Preserves.

(** ** Facts about the locus registry built by [read] (lines 156-185) *)


Section LocusFacts.
Import VectorTools GeneMapperCsvExport.

Lemma positions_from_nonempty (v : list string) x i :
  x ∈ v → positions_from i v x ≠ [].
Proof.
  revert i. induction v as [|y v IH]; intros i Hx; [by inversion Hx|].
  simpl. destruct (decide (y = x)); [done|].
  apply IH. apply elem_of_cons in Hx as [->|Hx]; done.
Qed.

Lemma whichAll_is_Some (v : list string) x : x ∈ v → is_Some (whichAll v x).
Proof.
  intros Hx. unfold whichAll.
  pose proof (positions_from_nonempty v x 0 Hx).
  destruct (positions_from 0 v x); [done|eauto].
Qed.

Lemma addAlleleInfo_name id li :
  locus_name (LocusOps.addAlleleInfo id li) = locus_name li.
Proof. unfold LocusOps.addAlleleInfo. by case_decide. Qed.

Lemma addAlleleInfo_length id li :
  length (locus_alleles (LocusOps.addAlleleInfo id li))
  ≤ S (length (locus_alleles li)).
Proof.
  unfold LocusOps.addAlleleInfo. case_decide; simpl; [lia|].
  rewrite length_app. simpl. lia.
Qed.

(** The loop of lines 163-169 fills every slot and never throws. *)
Lemma loci_info_from_ok (col : list string) ms :
  ∀ done acc, (∀ m, m ∈ ms → m ∈ col) →
    ∃ pos,
      loci_info_from col (length done) ms
        ((new_locus <$> done) ++ replicate (length ms) None) acc
      = inr (new_locus <$> (done ++ ms), acc ++ pos)
      ∧ length pos = length ms.
Proof.
  induction ms as [|m ms IH]; intros done acc Hin; simpl.
  - exists []. by rewrite !app_nil_r.
  - unfold LocusOps.setLocusInfo.
    rewrite decide_True; last first.
    { rewrite length_app, length_fmap. simpl. lia. }
    destruct (whichAll_is_Some col m) as [v Hv]; [apply Hin; left|].
    simpl. rewrite Hv. simpl.
    rewrite insert_app_r_alt by (rewrite length_fmap; lia).
    rewrite length_fmap, Nat.sub_diag. simpl.
    destruct (IH (done ++ [m]) (acc ++ [v])) as (pos & Heq & Hlen).
    { intros m' Hm'. apply Hin. by right. }
    exists (v :: pos). split; [|simpl; lia].
    rewrite length_app, Nat.add_1_r in Heq.
    rewrite fmap_app, <- !app_assoc in Heq. simpl in Heq.
    exact Heq.
Qed.

Lemma names_of_new ms : names_of (new_locus <$> ms) = Some <$> ms.
Proof. unfold names_of. rewrite <- list_fmap_compose. done. Qed.

(** Registering an allele under a name of the registry returns, and keeps
    the names of the registry. *)
Lemma addAlleleInfoByLocusName_ok name id al :
  Some name ∈ names_of al →
  ∃ i li, al !! i = Some (Some li) ∧ locus_name li = name
          ∧ LocusOps.addAlleleInfoByLocusName name id al
            = inr (<[i := Some (LocusOps.addAlleleInfo id li)]> al).
Proof.
  intros Hin. unfold LocusOps.addAlleleInfoByLocusName.
  destruct (list_find (LocusOps.named name) al) as [[i o]|] eqn:E.
  - apply list_find_Some in E as (Hi & Hn & _).
    destruct o as [li|]; [|done].
    exists i, li. repeat split; [done|]. by inversion Hn.
  - exfalso. rewrite list_find_None, Forall_forall in E.
    apply list_elem_of_fmap in Hin as (o & Ho & Hin).
    by apply (E o Hin).
Qed.

Lemma addAlleleInfoByLocusName_inv name id al al' :
  LocusOps.addAlleleInfoByLocusName name id al = inr al' →
  ∃ i li, al !! i = Some (Some li) ∧ locus_name li = name
          ∧ al' = <[i := Some (LocusOps.addAlleleInfo id li)]> al.
Proof.
  unfold LocusOps.addAlleleInfoByLocusName. intros H.
  destruct (list_find (LocusOps.named name) al) as [[i [li|]]|] eqn:E;
    [|done..].
  apply list_find_Some in E as (Hi & Hn & _).
  exists i, li. repeat split; [done|by inversion Hn|by inversion H].
Qed.

Lemma names_of_insert_allele al i li id :
  al !! i = Some (Some li) →
  names_of (<[i := Some (LocusOps.addAlleleInfo id li)]> al) = names_of al.
Proof.
  intros Hi. unfold names_of. rewrite list_fmap_insert. simpl.
  rewrite addAlleleInfo_name. apply list_insert_id.
  by rewrite list_lookup_fmap, Hi.
Qed.
End LocusFacts.

(** *** The number of alleles that the registration loop can add *)

Section RegisterFacts.
Import VectorTools GeneMapperCsvExport.
Context (dt : DataTable).

Lemma register_marker_bound c k done al mp al' :
  bounded k done al → mp.1 ∉ done →
  register_marker dt c al mp = inr al' →
  bounded k (mp.1 :: done) al'.
Proof.
  intros Hb Hmp. unfold register_marker.
  destruct (m_allele dt mp.2 c) as [|a ?].
  - intros [= <-] li Hli. destruct (Hb li Hli) as [H1 H2].
    split; [done|]. intros Hn. apply H2. intros ?. apply Hn. by right.
  - intros (i & li0 & Hi & Hname & ->)%addAlleleInfoByLocusName_inv li Hli.
    apply list_elem_of_lookup in Hli as [j Hj].
    apply list_lookup_insert_Some in Hj as [(-> & [= <-] & _)|[_ Hj]].
    + assert (Some li0 ∈ al) as Hin by (by eapply list_elem_of_lookup_2).
      destruct (Hb li0 Hin) as [_ H2].
      pose proof (addAlleleInfo_length a li0).
      split.
      * rewrite <- Hname in Hmp. specialize (H2 Hmp). lia.
      * intros Hn. exfalso. apply Hn. rewrite addAlleleInfo_name, Hname. by left.
    + assert (Some li ∈ al) as Hin by (by eapply list_elem_of_lookup_2).
      destruct (Hb li Hin) as [H1 H2].
      split; [done|]. intros Hn. apply H2. intros ?. apply Hn. by right.
Qed.

Lemma register_markers_bound c k mps :
  ∀ done al al',
    bounded k done al → NoDup mps.*1 → (∀ m, m ∈ mps.*1 → m ∉ done) →
    Res_foldl (register_marker dt c) al mps = inr al' →
    ∀ li, Some li ∈ al' → length (locus_alleles li) ≤ S k.
Proof.
  induction mps as [|mp mps IH]; intros done al al' Hb Hnd Hfresh; simpl.
  - intros [= <-] li Hli. by destruct (Hb li Hli).
  - destruct (register_marker dt c al mp) as [e|al1] eqn:E; [done|]. simpl.
    apply NoDup_cons in Hnd as [Hnotin Hnd].
    apply (IH (mp.1 :: done)); [|done|].
    + eapply register_marker_bound; [done| |done]. apply Hfresh. by left.
    + intros m Hm [->|Hd]%elem_of_cons; [done|].
      apply (Hfresh m); [by right|done].
Qed.

Lemma NoDup_zip_fst {X Y : Type} (l : list X) (k : list Y) :
  NoDup l → NoDup (zip l k).*1.
Proof.
  intros Hl. revert k. induction Hl as [|x l Hx _ IH]; intros [|y k]; simpl;
    try constructor; [|done].
  intros Hin. apply Hx.
  apply list_elem_of_fmap in Hin as ([x' y'] & -> & Hin).
  by apply elem_of_zip_l in Hin.
Qed.

Lemma register_alleles_bound cols ms ps :
  ∀ k al al',
    NoDup ms → (∀ li, Some li ∈ al → length (locus_alleles li) ≤ k) →
    register_alleles dt cols ms ps al = inr al' →
    ∀ li, Some li ∈ al' → length (locus_alleles li) ≤ k + length cols.
Proof.
  unfold register_alleles.
  induction cols as [|c cols IH]; intros k al al' Hnd Hk; simpl.
  - intros [= <-] li Hli. specialize (Hk li Hli). lia.
  - destruct (Res_foldl (register_marker dt c) al (zip ms ps)) as [e|al1] eqn:E;
      [done|]. simpl. intros Hrest li Hli.
    rewrite <- Nat.add_succ_comm.
    apply (IH (S k) al1 al'); [done| |done..].
    eapply (register_markers_bound c k _ []); [|by apply NoDup_zip_fst| |done].
    + intros li' Hli'. specialize (Hk li' Hli'). split; [lia|done].
    + intros m _ Hm. by inversion Hm.
Qed.

(** *** The registration loop returns *)

Lemma register_marker_ok c al mp :
  Some mp.1 ∈ names_of al →
  ∃ al', register_marker dt c al mp = inr al' ∧ names_of al' = names_of al.
Proof.
  intros Hin. unfold register_marker.
  destruct (m_allele dt mp.2 c) as [|a ?]; [by exists al|].
  destruct (addAlleleInfoByLocusName_ok mp.1 a al Hin) as (i & li & Hi & _ & ->).
  eexists. split; [done|]. by apply names_of_insert_allele.
Qed.

Lemma register_markers_ok c mps :
  ∀ al, (∀ m, m ∈ mps.*1 → Some m ∈ names_of al) →
    ∃ al', Res_foldl (register_marker dt c) al mps = inr al'
           ∧ names_of al' = names_of al.
Proof.
  induction mps as [|mp mps IH]; intros al Hin; simpl; [by exists al|].
  destruct (register_marker_ok c al mp) as (al1 & -> & Hn1); [apply Hin; by left|].
  simpl. destruct (IH al1) as (al' & -> & Hn').
  { intros m Hm. rewrite Hn1. apply Hin. by right. }
  exists al'. split; [done|congruence].
Qed.

Lemma register_alleles_ok cols ms ps :
  ∀ al, (∀ m, m ∈ ms → Some m ∈ names_of al) →
    ∃ al', register_alleles dt cols ms ps al = inr al'
           ∧ names_of al' = names_of al.
Proof.
  unfold register_alleles.
  induction cols as [|c cols IH]; intros al Hin; simpl; [by exists al|].
  destruct (register_markers_ok c (zip ms ps) al) as (al1 & -> & Hn1).
  { intros m ([x y] & -> & Hm%elem_of_zip_l)%list_elem_of_fmap. by apply Hin. }
  simpl. destruct (IH al1) as (al' & -> & Hn').
  { intros m Hm. rewrite Hn1. by apply Hin. }
  exists al'. split; [done|congruence].
Qed.
End RegisterFacts.

(** ** The run of [read] up to the genotype assembly *)

Section PhaseFacts.
Import VectorTools GeneMapperCsvExport.

Lemma cell_insert_ne r i j x : i ≠ j → cell (<[i := x]> r) j = cell r j.
Proof. intros H. unfold cell. by rewrite list_lookup_insert_ne. Qed.

Lemma cell_insert_eq r i x : i < length r → cell (<[i := x]> r) i = x.
Proof. intros H. unfold cell. by rewrite list_lookup_insert_eq. Qed.

Lemma fix_row_marker ic mc st r : ic ≠ mc → cell (fix_row ic mc st r).1 mc = cell r mc.
Proof.
  intros H. unfold fix_row. simpl.
  destruct (st !! _); [by apply cell_insert_ne|done].
Qed.

(** The fix of the names leaves the column of the markers as it was. *)
Lemma fix_rows_marker ic mc rs :
  ic ≠ mc → ∀ st, (λ r, cell r mc) <$> fix_rows ic mc st rs = (λ r, cell r mc) <$> rs.
Proof.
  intros H. induction rs as [|r rs IH]; intros st; [done|].
  simpl. f_equal; [|apply IH].
  by apply (fix_row_marker ic mc st r).
Qed.

Lemma columns_differ (dt : DataTable) ic mc :
  which (colNames dt) "Sample Name" = Some ic →
  which (colNames dt) "Marker" = Some mc → ic ≠ mc.
Proof. intros Hs%which_Some Hm%which_Some ->. by rewrite Hs in Hm. Qed.

Lemma add_individual_run n al inds tr :
  add_individual n
    {| ds := {| analyzedLoci := al; groups := [mkGroup 0 inds] |}; trace := tr |}
  = (inr tt,
     {| ds := {| analyzedLoci := al;
                 groups := [mkGroup 0 (inds ++ [new_individual n])] |};
        trace := tr ++ [EvAddIndividual 0 n] |}).
Proof. reflexivity. Qed.

(** Lines 148-151 in a dataset whose only group is group 0. *)
Lemma add_individuals_run names :
  ∀ al inds tr,
    forM_ names add_individual
      {| ds := {| analyzedLoci := al; groups := [mkGroup 0 inds] |}; trace := tr |}
    = (inr tt,
       {| ds := {| analyzedLoci := al;
                   groups := [mkGroup 0 (inds ++ (new_individual <$> names))] |};
          trace := tr ++ (EvAddIndividual 0 <$> names) |}).
Proof.
  induction names as [|n names IH]; intros al inds tr; simpl.
  - by rewrite !app_nil_r.
  - erewrite bind_inr; [|apply add_individual_run].
    rewrite IH. by rewrite <- !app_assoc.
Qed.

(** On a table with the two required columns, [read] gets to the genotype
    assembly without an exception; the registry then has one locus per
    distinct marker, each with at most one allele per allele column. *)
Lemma read_new_phases (dt : DataTable) ic mc :
  which (colNames dt) "Sample Name" = Some ic →
  which (colNames dt) "Marker" = Some mc →
  ∃ al,
    names_of al = Some <$> markers_of dt mc
    ∧ (∀ li, Some li ∈ al →
         length (locus_alleles li) ≤ length (allele_columns dt))
    ∧ read_new (Some dt)
      = forM_ (rows (fix_names ic mc dt))
          (read_row ic mc (allele_columns dt))
          (loaded (ind_names_of dt ic mc) (markers_of dt mc) al).
Proof.
  intros Hs Hm. pose proof (columns_differ dt ic mc Hs Hm) as Hne.
  assert (column (fix_names ic mc dt) mc = column dt mc) as Hcol.
  { unfold column, fix_names. simpl. by apply fix_rows_marker. }
  destruct (loci_info_from_ok (column dt mc) (markers_of dt mc) [] [])
    as (pos & Hloci & Hpos).
  { intros m. unfold markers_of. by rewrite elem_of_unique. }
  simpl in Hloci.
  destruct (register_alleles_ok (fix_names ic mc dt) (allele_columns dt)
              (markers_of dt mc) pos (new_locus <$> markers_of dt mc))
    as (al & Hreg & Hnames).
  { intros m Hm'. rewrite names_of_new. by apply list_elem_of_fmap_2. }
  exists al. split; [by rewrite Hnames, names_of_new|]. split.
  { eapply (register_alleles_bound _ _ _ _ 0); [apply NoDup_unique| |exact Hreg].
    intros li (m & [= ->] & _)%list_elem_of_fmap. simpl. lia. }
  unfold read_new, read, getColumn, colIndex. simpl.
  rewrite Hs, Hm. simpl.
  repeat (rewrite bind_lift; simpl).
  repeat (rewrite bind_update; simpl).
  erewrite bind_inr; [|apply add_individuals_run].
  rewrite bind_lift. simpl. rewrite Hcol.
  fold (markers_of dt mc). rewrite bind_lift, Hloci.
  rewrite bind_lift. fold (allele_columns dt). rewrite Hreg.
  rewrite bind_update. simpl.
  repeat (rewrite bind_lift; simpl). reflexivity.
Qed.
End PhaseFacts.

(** ** The genotype assembly (lines 193-210) *)

Section AssemblyFacts.
Import VectorTools GeneMapperCsvExport.

Lemma inits_of_app g p t1 t2 :
  inits_of g p (t1 ++ t2) = inits_of g p t1 + inits_of g p t2.
Proof. unfold inits_of. by rewrite filter_app, length_app. Qed.

Lemma inits_of_none g p tr :
  Forall (λ e, is_init g p e = false) tr → inits_of g p tr = 0.
Proof.
  unfold inits_of. induction 1 as [|e tr He _ IH]; [done|].
  rewrite filter_cons_False; [exact IH|]. rewrite He. simpl. tauto.
Qed.

Lemma inits_of_init g p q :
  inits_of g p [EvInitGenotype g q] = if decide (q = p) then 1 else 0.
Proof.
  unfold inits_of. case_decide as H.
  - subst. rewrite filter_cons_True; [done|]. simpl. by rewrite bool_decide_true.
  - rewrite filter_cons_False; [done|]. simpl.
    rewrite bool_decide_false; [simpl; tauto|]. by intros [_ ?].
Qed.

(** The loop over the allele columns of a row only reads the dataset. *)
Lemma allele_key_run r mc a c w : ∃ res, allele_key r mc a c w = (res, w).
Proof.
  unfold allele_key. destruct (TextTools.isEmpty (cell r c)); [by eexists|].
  rewrite bind_query. destruct (DataSetOps.getLocusInfoByName _ _); [by eexists|].
  rewrite bind_lift. destruct (LocusOps.getAlleleInfoKey _ _); by eexists.
Qed.

Lemma allele_keys_run r mc cols :
  ∀ a w, ∃ res, M_foldl (allele_key r mc) a cols w = (res, w).
Proof.
  induction cols as [|c cols IH]; intros a w; simpl; [by eexists|].
  destruct (allele_key_run r mc a c w) as [[e|a'] H].
  - erewrite bind_inl by done. by eexists.
  - erewrite bind_inr by done. apply IH.
Qed.

Lemma same_name_same_place (inds : list Individual) p q a b :
  NoDup (ind_id <$> inds) → inds !! p = Some a → inds !! q = Some b →
  ind_id a = ind_id b → p = q.
Proof.
  intros Hnd Hp Hq Hab.
  apply (NoDup_lookup (ind_id <$> inds) p q (ind_id a) Hnd).
  - by rewrite list_lookup_fmap, Hp.
  - by rewrite list_lookup_fmap, Hq, Hab.
Qed.

(** Fewer rows seen, weaker statement. *)
Lemma assembling_weaken names al seen seen' w :
  (∀ x, x ∈ seen → x ∈ seen') →
  assembling names al seen' w → assembling names al seen w.
Proof.
  intros Hsub (inds & Hds & Hids & Hcnt & Hout & Hseen & Hset).
  exists inds. repeat split; try done.
  intros ind Hin Hid. apply Hseen; [done|]. by apply Hsub.
Qed.

(** The individual of one more row has its storage. *)
Lemma assembling_seen names al seen w name inds p ind :
  NoDup names → assembling names al seen w →
  ds w = shape al inds → inds !! p = Some ind → ind_id ind = name →
  hasGenotype ind = true →
  assembling names al (name :: seen) w.
Proof.
  intros Hnd (inds' & Hds & Hids & Hcnt & Hout & Hseen & Hset) Hds' Hp Hid Hg.
  rewrite Hds in Hds'. injection Hds' as ->.
  exists inds. repeat split; try done.
  intros ind' [q Hq]%list_elem_of_lookup [Heq|Hin]%elem_of_cons.
  - rewrite <- Hids in Hnd.
    assert (q = p) as ->.
    { eapply same_name_same_place; [done..|congruence]. }
    congruence.
  - apply Hseen; [by eapply list_elem_of_lookup_2|done].
Qed.

(** One mutating call that replaces the individual at [p] by one of the
    same name with a storage. *)
Lemma assembling_replace names al seen w inds p ind ind' ev :
  assembling names al seen w → ds w = shape al inds →
  inds !! p = Some ind → ind_id ind' = ind_id ind → hasGenotype ind' = true →
  inits_of 0 p [ev] = (if hasGenotype ind then 0 else 1) →
  (∀ q, q ≠ p → inits_of 0 q [ev] = 0) →
  set_ok (length al) ev →
  assembling names al seen
    {| ds := shape al (<[p := ind']> inds); trace := trace w ++ [ev] |}.
Proof.
  intros (inds' & Hds & Hids & Hcnt & Hout & Hseen & Hset) Hds' Hp Hid Hg Hev Hoth Hok.
  rewrite Hds in Hds'. injection Hds' as ->.
  exists (<[p := ind']> inds). simpl. split; [done|]. repeat split.
  - rewrite list_fmap_insert, Hid, <- Hids. apply list_insert_id.
    by rewrite list_lookup_fmap, Hp.
  - intros q indq [(-> & <- & _)|[Hne Hq]]%list_lookup_insert_Some;
      rewrite inits_of_app.
    + rewrite (Hcnt _ _ Hp), Hev, Hg. by destruct (hasGenotype ind).
    + rewrite (Hcnt _ _ Hq), (Hoth q) by done. lia.
  - intros q Hq. rewrite length_insert in Hq. rewrite inits_of_app.
    rewrite (Hout q Hq), (Hoth q); [done|].
    apply lookup_lt_Some in Hp. lia.
  - intros indq [q Hq]%list_elem_of_lookup Hin.
    apply list_lookup_insert_Some in Hq as [(-> & <- & _)|[Hne Hq]]; [done|].
    apply Hseen; [by eapply list_elem_of_lookup_2|done].
  - apply Forall_app. split; [done|]. by constructor.
Qed.

Lemma find_individual al inds name w :
  ds w = shape al inds →
  DataSetOps.getIndividualByIdFromGroup 0 name (ds w)
  = of_option (LookupError name)
      (snd <$> list_find (DataSetOps.same_id name) inds)
  ∧ DataSetOps.getIndividualPositionInGroup 0 name (ds w)
    = of_option (LookupError name)
        (fst <$> list_find (DataSetOps.same_id name) inds).
Proof. intros ->. done. Qed.

(** Lines 206-207 keep the state of the assembly, and give the individual
    of the row its storage when they return. *)
Lemma init_genotype_inv names al seen name w :
  NoDup names → assembling names al seen w →
  assembling names al seen (init_genotype name w).2
  ∧ ((init_genotype name w).1 = inr tt →
     assembling names al (name :: seen) (init_genotype name w).2).
Proof.
  intros Hnd Hw. pose proof Hw as (inds & Hds & Hids & Hcnt & Hout & Hseen & Hset).
  destruct (find_individual al inds name w Hds) as [Hby Hpos].
  unfold init_genotype. rewrite bind_query, Hby.
  destruct (list_find (DataSetOps.same_id name) inds) as [[p ind]|] eqn:Hfind;
    simpl; [|done].
  pose proof Hfind as (Hp & Hid & _)%list_find_Some.
  destruct (hasGenotype ind) eqn:Hg.
  - simpl. split; [done|]. intros _. by eapply assembling_seen.
  - rewrite bind_query, Hpos. simpl.
    unfold update, DataSetOps.initIndividualGenotypeInGroup.
    rewrite Hds. simpl. rewrite Hp. simpl.
    set (ind' := {| ind_id := ind_id ind;
                    ind_genotype := Some (replicate (length al) None) |}).
    assert (assembling names al seen
              {| ds := shape al (<[p := ind']> inds);
                 trace := trace w ++ [EvInitGenotype 0 p] |}) as Hw'.
    { eapply assembling_replace; try done.
      - rewrite inits_of_init, Hg. by rewrite decide_True.
      - intros q Hq. rewrite inits_of_init. by rewrite decide_False. }
    split; [exact Hw'|]. intros _.
    eapply (assembling_seen _ _ _ _ name _ p ind'); try done.
    apply list_lookup_insert_eq. by eapply lookup_lt_Some.
Qed.

Lemma getLocusInfoPosition_lt name (al : list (option LocusInfo)) l :
  LocusOps.getLocusInfoPosition name al = inr l → l < length al.
Proof.
  unfold LocusOps.getLocusInfoPosition.
  destruct (list_find _ al) as [[i o]|] eqn:E; simpl; [|done].
  intros [= <-]. apply list_find_Some in E as (Hi & _). by eapply lookup_lt_Some.
Qed.

(** Lines 208-209 keep the state of the assembly. *)
Lemma set_genotype_inv names al seen name marker ma w :
  assembling names al seen w →
  assembling names al seen (set_genotype name marker ma w).2.
Proof.
  intros Hw. pose proof Hw as (inds & Hds & Hids & Hcnt & Hout & Hseen & Hset).
  destruct (find_individual al inds name w Hds) as [Hby Hpos].
  unfold set_genotype. destruct ma as [|a ma]; [done|].
  rewrite bind_query, Hpos.
  destruct (list_find (DataSetOps.same_id name) inds) as [[p ind]|] eqn:Hfind;
    simpl; [|done].
  pose proof Hfind as (Hp & Hid & _)%list_find_Some.
  rewrite bind_query, Hds. simpl. rewrite bind_lift.
  destruct (LocusOps.getLocusInfoPosition marker al) as [e|l] eqn:Hl; [done|].
  apply getLocusInfoPosition_lt in Hl.
  unfold update, DataSetOps.setIndividualMonolocusGenotypeInGroup.
  rewrite Hds. simpl. rewrite Hp. simpl.
  destruct (ind_genotype ind) as [gt|] eqn:Hgt; simpl; [|done].
  case_decide; simpl; [|done].
  eapply assembling_replace; try done.
  unfold hasGenotype. by rewrite Hgt.
Qed.

(** One row. *)
Lemma read_row_inv names al seen ic mc cols r w :
  NoDup names → assembling names al seen w →
  assembling names al seen (read_row ic mc cols r w).2
  ∧ ((read_row ic mc cols r w).1 = inr tt →
     assembling names al (cell r ic :: seen) (read_row ic mc cols r w).2).
Proof.
  intros Hnd Hw. unfold read_row.
  destruct (allele_keys_run r mc cols [] w) as [[e|alleles] Hk].
  { erewrite bind_inl by done. done. }
  erewrite bind_inr by done.
  destruct (init_genotype_inv names al seen (cell r ic) w Hnd Hw) as [H1 H2].
  destruct (init_genotype (cell r ic) w) as [[e|[]] w1] eqn:Hi.
  { erewrite bind_inl by done. done. }
  erewrite bind_inr by done. simpl in H1, H2.
  split; [by apply set_genotype_inv|].
  intros _. apply set_genotype_inv. by apply H2.
Qed.

(** All the rows. *)
Lemma read_rows_inv names al ic mc cols rs :
  NoDup names → ∀ seen w, assembling names al seen w →
  let out := forM_ rs (read_row ic mc cols) w in
  assembling names al seen out.2
  ∧ (out.1 = inr tt →
     assembling names al (((λ r, cell r ic) <$> rs) ++ seen) out.2).
Proof.
  intros Hnd. induction rs as [|r rs IH]; intros seen w Hw; simpl; [done|].
  destruct (read_row_inv names al seen ic mc cols r w Hnd Hw) as [H1 H2].
  destruct (read_row ic mc cols r w) as [[e|[]] w1] eqn:Hr.
  { erewrite bind_inl by done. done. }
  erewrite bind_inr by done. simpl in H1, H2.
  destruct (IH (cell r ic :: seen) w1 (H2 eq_refl)) as [H3 H4].
  split.
  - eapply assembling_weaken; [|exact H3]. intros x Hx. by right.
  - intros Hout. eapply assembling_weaken; [|exact (H4 Hout)].
    intros x [->|[Hx|Hx]%elem_of_app]%elem_of_cons; apply elem_of_app.
    + right. by left.
    + by left.
    + right. by right.
Qed.

(** The state in which the assembly starts. *)
Lemma loaded_assembling names markers al :
  assembling names al [] (loaded names markers al).
Proof.
  assert (∀ p, inits_of 0 p (trace (loaded names markers al)) = 0) as H0.
  { intros p. apply inits_of_none. simpl. repeat constructor.
    apply Forall_app. split; [|by repeat constructor].
    apply Forall_fmap, Forall_forall. done. }
  exists (new_individual <$> names). repeat split.
  - rewrite <- list_fmap_compose. apply list_fmap_id.
  - intros p ind (n & -> & _)%list_lookup_fmap_Some. apply H0.
  - intros p _. apply H0.
  - intros ind _ Hin. by inversion Hin.
  - simpl. repeat constructor.
    apply Forall_app. split; [|by repeat constructor].
    apply Forall_fmap, Forall_forall. done.
Qed.

(** [read] on a table, in a new dataset: either a required column is
    missing and nothing happened, or the run ends, with or without an
    exception, in a state of the genotype assembly; when it returns, every
    row was seen. *)
Lemma read_new_cases (dt : DataTable) :
  (∃ col, (col = "Sample Name" ∨ col = "Marker") ∧ (col ∉ colNames dt)
          ∧ ∀ w, read (Some dt) w = (inl (MissingColumnError col), w))
  ∨ (∃ ic mc al,
       which (colNames dt) "Sample Name" = Some ic
       ∧ which (colNames dt) "Marker" = Some mc
       ∧ names_of al = Some <$> markers_of dt mc
       ∧ (∀ li, Some li ∈ al →
            length (locus_alleles li) ≤ length (allele_columns dt))
       ∧ assembling (ind_names_of dt ic mc) al [] (read_new (Some dt)).2
       ∧ ((read_new (Some dt)).1 = inr tt →
          assembling (ind_names_of dt ic mc) al
            (column (fix_names ic mc dt) ic) (read_new (Some dt)).2)).
Proof.
  destruct (which (colNames dt) "Sample Name") as [ic|] eqn:Es; last first.
  { left. exists "Sample Name". apply which_None in Es as Hn.
    repeat split; [by left|done|]. intros w.
    unfold read, getColumn, colIndex. by rewrite Es. }
  destruct (which (colNames dt) "Marker") as [mc|] eqn:Em; last first.
  { left. exists "Marker". apply which_None in Em as Hn.
    repeat split; [by right|done|]. intros w.
    unfold read, getColumn, colIndex. by rewrite Es, Em. }
  right. destruct (read_new_phases dt ic mc Es Em) as (al & Hn & Hb & ->).
  exists ic, mc, al. repeat split; try done.
  - apply read_rows_inv; [apply NoDup_unique|apply loaded_assembling].
  - intros Hout.
    pose proof (read_rows_inv (ind_names_of dt ic mc) al ic mc
                  (allele_columns dt) (rows (fix_names ic mc dt))
                  (NoDup_unique _) [] _
                  (loaded_assembling _ (markers_of dt mc) al)) as [_ H].
    specialize (H Hout). by rewrite app_nil_r in H.
Qed.

Lemma shape_names al inds : individual_names (shape al inds) = ind_id <$> inds.
Proof. unfold individual_names. simpl. apply app_nil_r. Qed.
End AssemblyFacts.

(** ** The header check (lines 100-108) *)

Import GeneMapperCsvExport.

(** C4.  When the header of the table lacks "Marker" or "Sample Name",
    [read] throws the missing-column error of the first of the two names
    that is absent, and the state of the run is the one it started from:
    the destination dataset is the same and not one mutating call was made
    on it. *)
Theorem read_missing_column (dt : DataTable) (w : World) :
  "Marker" ∉ colNames dt ∨ "Sample Name" ∉ colNames dt →
  ∃ col, (col = "Sample Name" ∨ col = "Marker") ∧ (col ∉ colNames dt)
         ∧ read (Some dt) w = (inl (MissingColumnError col), w).
Proof.
  intros H. unfold read, getColumn, colIndex.
  destruct (VectorTools.which (colNames dt) "Sample Name") as [i|] eqn:Es.
  - destruct (VectorTools.which (colNames dt) "Marker") as [j|] eqn:Em.
    + apply which_Some in Es, Em.
      destruct H as [H|H]; exfalso; apply H; by eapply list_elem_of_lookup_2.
    + exists "Marker". apply which_None in Em. by repeat split; [right|..].
  - exists "Sample Name". apply which_None in Es. by repeat split; [left|..].
Qed.

Lemma read_missing_column_witness :
  ∃ col, (col = "Sample Name" ∨ col = "Marker") ∧ (col ∉ colNames tbl_no_marker)
         ∧ read (Some tbl_no_marker) {| ds := ds_used; trace := [] |}
           = (inl (MissingColumnError col), {| ds := ds_used; trace := [] |}).
Proof.
  apply (read_missing_column tbl_no_marker).
  left. vm_compute. intros H. by repeat (apply elem_of_cons in H as [H|H]; [done|]); inversion H.
Defined.

(** ** Runs on concrete tables *)

(** One sample, one marker, one allele: one group with one individual, one
    locus with one allele, and the key of that allele as the genotype. *)
Lemma read_single :
  read_new (Some tbl_single)
  = (inr tt,
     {| ds := {| analyzedLoci := Some [Some (mkLocusInfo "M" ["A"])];
                 groups := [mkGroup 0 [mkIndividual "s" (Some [Some [0]])]] |};
        trace := [EvInitAnalyzedLoci 1; EvAddEmptyGroup 0; EvAddIndividual 0 "s";
                  EvSetAnalyzedLoci [Some (mkLocusInfo "M" ["A"])];
                  EvInitGenotype 0 0; EvSetGenotype 0 0 0 [0]] |}).
Proof. by vm_compute. Qed.

(** The suffixed name of a duplicate can be the name of another sample; the
    two then are one individual of the dataset. *)
Lemma read_collision_names :
  individual_names (ds (read_new (Some tbl_collision)).2) = ["a"; "a_2"].
Proof. by vm_compute. Qed.

(** ** The names of the individuals (lines 109-121 and 147-151) *)

(** C3.  Whatever the table, and whether the import returns or throws, the
    individuals that [read] registers in a new dataset have pairwise
    distinct names. *)
Theorem read_names_distinct (stream : option DataTable) :
  NoDup (individual_names (ds (read_new stream).2)).
Proof.
  destruct stream as [dt|]; [|constructor].
  destruct (read_new_cases dt) as [(col & _ & _ & H)|H].
  - unfold read_new. rewrite H. constructor.
  - destruct H as (ic & mc & al & _ & _ & _ & _ & (inds & -> & Hids & _) & _).
    rewrite shape_names, Hids. apply NoDup_unique.
Qed.

(** ** The allele registry (lines 170-185) *)

(** C10.  In the dataset that [read] fills, a locus has at most as many
    alleles as the table has "Allele" columns. *)
Theorem alleles_per_locus_bounded (dt : DataTable) (li : LocusInfo) :
  Some li ∈ registry (ds (read_new (Some dt)).2) →
  length (locus_alleles li) ≤ length (allele_columns dt).
Proof.
  destruct (read_new_cases dt) as [(col & _ & _ & H)|H].
  - unfold read_new. rewrite H. simpl. intros Hin. by inversion Hin.
  - destruct H as (ic & mc & al & _ & _ & _ & Hb & (inds & -> & _) & _).
    simpl. apply Hb.
Qed.

Lemma alleles_per_locus_bounded_witness :
  length (locus_alleles (mkLocusInfo "M" ["A"])) ≤ length (allele_columns tbl_single).
Proof.
  apply (alleles_per_locus_bounded tbl_single (mkLocusInfo "M" ["A"])).
  vm_compute. apply list_elem_of_here.
Defined.

(** C2, on the table [tbl_two_labels]: the labels "A" and "B" both occur at
    the marker "M", yet the registry of the locus "M" only gets "A", and the
    genotype assembly then throws on the look-up of "B". *)
Theorem two_labels_one_registered :
  registry (ds (read_new (Some tbl_two_labels)).2)
  = [Some (mkLocusInfo "M" ["A"])]
  ∧ (read_new (Some tbl_two_labels)).1 = inl (LookupError "B").
Proof. by vm_compute. Qed.

(** ** The genotype assembly (lines 193-210) *)

(** C5, as stated, fails on [tbl_no_call]: the only row has no call, its
    individual gets its genotype storage all the same, and no locus is ever
    assigned to it. *)
Lemma storage_created_without_locus :
  (read_new (Some tbl_no_call)).1 = inr tt
  ∧ inits_of 0 0 (trace (read_new (Some tbl_no_call)).2) = 1
  ∧ sets_of 0 0 (trace (read_new (Some tbl_no_call)).2) = 0
  ∧ individual_names (ds (read_new (Some tbl_no_call)).2) = ["s"].
Proof. by vm_compute. Qed.

(** C5, amended.  The genotype storage of an individual is never created
    twice, and it is created exactly once for every individual when the
    import returns; a genotype is written at a locus only with at least one
    allele key. *)
Theorem genotype_storage_once (dt : DataTable) :
  (∀ p, inits_of 0 p (trace (read_new (Some dt)).2) ≤ 1)
  ∧ ((read_new (Some dt)).1 = inr tt →
     ∀ p, p < length (individual_names (ds (read_new (Some dt)).2)) →
          inits_of 0 p (trace (read_new (Some dt)).2) = 1)
  ∧ (∀ g p l ma, EvSetGenotype g p l ma ∈ trace (read_new (Some dt)).2 → ma ≠ []).
Proof.
  destruct (read_new_cases dt) as [(col & _ & _ & H)|H].
  { unfold read_new. rewrite H. simpl. repeat split; [|done|].
    - intros p. unfold inits_of. simpl. lia.
    - intros g p l ma Hin. by inversion Hin. }
  destruct H as (ic & mc & al & _ & _ & _ & _ & Hw & Hret).
  repeat split.
  - intros p. destruct Hw as (inds & _ & _ & Hcnt & Hout & _).
    destruct (inds !! p) as [ind|] eqn:Hp.
    + rewrite (Hcnt p ind Hp). destruct (hasGenotype ind); lia.
    + apply lookup_ge_None in Hp. rewrite (Hout p Hp). lia.
  - intros Hout p Hp.
    destruct (Hret Hout) as (inds & Hds & Hids & Hcnt & _ & Hseen & _).
    rewrite Hds, shape_names, length_fmap in Hp.
    destruct (lookup_lt_is_Some_2 inds p Hp) as [ind Hind].
    rewrite (Hcnt p ind Hind), (Hseen ind); [done|by eapply list_elem_of_lookup_2|].
    assert (ind_id ind ∈ ind_names_of dt ic mc) as Hin.
    { rewrite <- Hids. apply list_elem_of_fmap_2. by eapply list_elem_of_lookup_2. }
    unfold ind_names_of in Hin. by rewrite elem_of_unique in Hin.
  - intros g p l ma Hin. destruct Hw as (inds & _ & _ & _ & _ & _ & Hset).
    rewrite Forall_forall in Hset. by destruct (Hset _ Hin).
Qed.

Lemma genotype_storage_once_witness :
  (read_new (Some tbl_single)).1 = inr tt
  ∧ inits_of 0 0 (trace (read_new (Some tbl_single)).2) = 1.
Proof.
  split; [by vm_compute|].
  destruct (genotype_storage_once tbl_single) as (_ & H & _).
  apply H; [by vm_compute|vm_compute; lia].
Defined.

(** ** The fix of the duplicated names (lines 109-117) *)

Lemma string_length_app (s t : string) :
  String.length (s +:+ t) = String.length s + String.length t.
Proof. induction s as [|c s IH]; simpl; [done|]. by rewrite IH. Qed.

Lemma suffixed_name_differs (s : string) : s ≠ s +:+ "_2".
Proof.
  intros H. apply (f_equal String.length) in H.
  rewrite string_length_app in H. simpl in H. lia.
Qed.

(** The two rows of a duplicated call after the fix: the second sample name
    gets the suffix [_2]. *)
Lemma fix_rows_pair ic mc (r1 r2 : list string) :
  cell r2 ic = cell r1 ic → cell r2 mc = cell r1 mc →
  fix_rows ic mc ∅ [r1; r2] = [r1; <[ic := cell r1 ic +:+ "_2"]> r2].
Proof.
  intros Hn Hm. unfold fix_rows, fix_row. rewrite lookup_empty. simpl.
  rewrite Hn, Hm, lookup_insert_eq. done.
Qed.

(** C1, as stated, fails on [tbl_duplicate]: the second name is [S_2], and
    no individual is called [S_1]. *)
Lemma duplicate_suffix_is_not_1 :
  individual_names (ds (read_new (Some tbl_duplicate)).2) = ["S"; "S_2"]
  ∧ "S" +:+ "_1" ∉ individual_names (ds (read_new (Some tbl_duplicate)).2).
Proof.
  split; [by vm_compute|]. vm_compute.
  intros H. repeat (apply elem_of_cons in H as [H|H]; [done|]). by inversion H.
Qed.

(** C1, amended.  For a rectangular table of exactly two rows with the same
    "Sample Name" and the same "Marker", the new dataset holds two
    individuals with distinct names, the name of the rows and that name with
    the suffix [_2]; its registry has one locus, the one of the marker, and
    every genotype that is written is written at that locus. *)
Theorem read_duplicate_pair (dt : DataTable) (r1 r2 : list string) (ic mc : nat) :
  wf_table dt → rows dt = [r1; r2] →
  VectorTools.which (colNames dt) "Sample Name" = Some ic →
  VectorTools.which (colNames dt) "Marker" = Some mc →
  cell r2 ic = cell r1 ic → cell r2 mc = cell r1 mc →
  individual_names (ds (read_new (Some dt)).2)
  = [cell r1 ic; cell r1 ic +:+ "_2"]
  ∧ cell r1 ic ≠ cell r1 ic +:+ "_2"
  ∧ locus_names (ds (read_new (Some dt)).2) = [Some (cell r1 mc)]
  ∧ (∀ g p l ma,
       EvSetGenotype g p l ma ∈ trace (read_new (Some dt)).2 → l = 0).
Proof.
  intros Hwf Hrows Hs Hm Hn2 Hm2.
  pose proof (suffixed_name_differs (cell r1 ic)) as Hne.
  destruct (read_new_cases dt)
    as [(col & Hc & Hnot & _)|(ic' & mc' & al & Hs' & Hm' & Hnames & _ & Hw & _)].
  { exfalso. apply Hnot.
    destruct Hc as [->| ->]; eapply list_elem_of_lookup_2, which_Some; done. }
  rewrite Hs in Hs'. rewrite Hm in Hm'. injection Hs' as <-. injection Hm' as <-.
  assert (ic < length r2) as Hlt.
  { unfold wf_table in Hwf. rewrite Hrows in Hwf.
    apply Forall_cons in Hwf as [_ [-> _]%Forall_cons].
    apply which_Some in Hs. by eapply lookup_lt_Some. }
  assert (ind_names_of dt ic mc = [cell r1 ic; cell r1 ic +:+ "_2"]) as Hind.
  { unfold ind_names_of, column, fix_names. simpl.
    rewrite Hrows, fix_rows_pair by done. simpl.
    rewrite cell_insert_eq by done.
    rewrite filter_cons_True by (intros E; by apply Hne). done. }
  assert (markers_of dt mc = [cell r1 mc]) as Hmark.
  { unfold markers_of, column. rewrite Hrows. simpl. rewrite Hm2.
    by rewrite filter_cons_False by (intros E; by apply E). }
  rewrite Hind in Hw. rewrite Hmark in Hnames.
  destruct Hw as (inds & Hds & Hids & _ & _ & _ & Hset).
  rewrite Hds. repeat split; try done.
  - by rewrite shape_names.
  - intros g p l ma Hin. rewrite Forall_forall in Hset.
    destruct (Hset _ Hin) as [_ Hl].
    apply (f_equal length) in Hnames. unfold names_of in Hnames.
    rewrite length_fmap in Hnames. simpl in Hnames. lia.
Qed.

Lemma read_duplicate_pair_witness :
  individual_names (ds (read_new (Some tbl_duplicate)).2) = ["S"; "S" +:+ "_2"]
  ∧ "S" ≠ "S" +:+ "_2"
  ∧ locus_names (ds (read_new (Some tbl_duplicate)).2) = [Some "M"]
  ∧ (∀ g p l ma,
       EvSetGenotype g p l ma ∈ trace (read_new (Some tbl_duplicate)).2 → l = 0).
Proof.
  apply (read_duplicate_pair tbl_duplicate ["S"; "M"; "A"] ["S"; "M"; "A"] 0 1).
  - repeat constructor.
  - reflexivity.
  - reflexivity.
  - reflexivity.
  - reflexivity.
  - reflexivity.
Defined.

(** ** The statistics *)

Section StatisticsFacts.
Import VectorTools SequenceStatistics.

Lemma filter_length_mono {X : Type} (P Q : X → Prop)
    `{∀ x, Decision (P x)} `{∀ x, Decision (Q x)} (l : list X) :
  (∀ x, P x → Q x) → length (filter P l) ≤ length (filter Q l).
Proof.
  intros HPQ. induction l as [|x l IH]; [done|].
  destruct (decide (P x)) as [HP|HP].
  - rewrite (filter_cons_True P), (filter_cons_True Q) by auto. simpl. lia.
  - rewrite (filter_cons_False P) by done.
    destruct (decide (Q x)).
    + rewrite (filter_cons_True Q) by done. simpl. lia.
    + by rewrite (filter_cons_False Q).
Qed.

(** Leaving the gaps out can only remove a state from a site. *)
Lemma states_without_gaps (s : Site) :
  length (states true s) ≤ length (states false s).
Proof.
  unfold states, observed. apply submseteq_length, NoDup_submseteq.
  - apply NoDup_unique.
  - intros x. rewrite !elem_of_unique, list_elem_of_filter. tauto.
Qed.

Lemma polymorphic_without_gaps (s : Site) :
  isPolymorphic true s → isPolymorphic false s.
Proof.
  unfold isPolymorphic. rewrite !bool_decide_spec.
  pose proof (states_without_gaps s). lia.
Qed.
End StatisticsFacts.

Import SequenceStatistics.

Lemma checked_aligned {A : Type} (psc : PolymorphismSequenceContainer) (v : A) :
  aligned psc = true → checked psc v = inr v.
Proof. intros H. unfold checked. by rewrite H. Qed.

(** C6, as stated, fails on [psc_gap]: with the flag set the gap is left out
    and the site is constant, without the flag the gap is a second state. *)
Lemma gapflag_true_is_not_greater :
  polymorphicSiteNumber psc_gap true = inr 0
  ∧ polymorphicSiteNumber psc_gap false = inr 1
  ∧ ¬ (0 ≥ 1).
Proof. repeat split; [by vm_compute..|lia]. Qed.

(** C6, amended.  For any alignment the two counts are defined, and the
    count without the flag, gaps counted as a state, is at least the count
    with the flag, gaps left out. *)
Theorem polymorphicSiteNumber_gap_monotone (psc : PolymorphismSequenceContainer) :
  aligned psc = true →
  ∃ with_gaps without_gaps,
    polymorphicSiteNumber psc false = inr with_gaps
    ∧ polymorphicSiteNumber psc true = inr without_gaps
    ∧ with_gaps ≥ without_gaps.
Proof.
  intros Hal. unfold polymorphicSiteNumber. rewrite !checked_aligned by done.
  eexists _, _. repeat split.
  unfold polymorphic_sites. apply filter_length_mono.
  apply polymorphic_without_gaps.
Qed.

Lemma polymorphicSiteNumber_gap_monotone_witness :
  ∃ with_gaps without_gaps,
    polymorphicSiteNumber psc_four false = inr with_gaps
    ∧ polymorphicSiteNumber psc_four true = inr without_gaps
    ∧ with_gaps ≥ without_gaps.
Proof. apply (polymorphicSiteNumber_gap_monotone psc_four). reflexivity. Defined.

Section WattersonFacts.
Open Scope Q_scope.

(** The loop of a sum computes the sum. *)
Lemma sum_loop_Qsum (f : nat → Q) (k : nat) :
  ∀ i acc, sum_loop f i k acc == acc + Qsum f (seq i k).
Proof.
  induction k as [|k IH]; intros i acc; simpl.
  - ring.
  - rewrite IH. ring.
Qed.

Lemma Qsum_nonneg {X : Type} (f : X → Q) (l : list X) :
  (∀ x, 0 <= f x) → 0 <= Qsum f l.
Proof.
  intros Hf. induction l as [|x l IH]; [apply Qle_refl|].
  change (0 <= f x + Qsum f l). specialize (Hf x). lra.
Qed.

Lemma Qnat_nonneg (n : nat) : 0 <= Qnat n.
Proof.
  unfold Qnat. change 0 with (inject_Z 0). rewrite <- Zle_Qle. lia.
Qed.

Lemma inverse_nonneg (n : nat) : 0 <= 1 / Qnat n.
Proof.
  unfold Qdiv. rewrite Qmult_1_l. apply Qinv_le_0_compat, Qnat_nonneg.
Qed.

(** The coefficient [a1] of at least two sequences is positive. *)
Lemma harmonic_positive (n : nat) :
  (2 <= n)%nat → 0 < Qsum (λ i, 1 / Qnat i) (seq 1 (n - 1)).
Proof.
  intros Hn. destruct n as [|[|k]]; [lia..|].
  replace (S (S k) - 1)%nat with (S k) by lia.
  pose proof (Qsum_nonneg (λ i, 1 / Qnat i) (seq 2 k) inverse_nonneg) as H.
  change (0 < 1 / Qnat 1 + Qsum (λ i, 1 / Qnat i) (seq 2 k)).
  assert (1 / Qnat 1 == 1) as -> by reflexivity. lra.
Qed.
End WattersonFacts.

(** C7.  For an alignment of [n] sequences, [n] at least two, [watterson75]
    returns the number [S] of polymorphic sites under the gap policy over
    [a1], and [a1] is the sum of [1 / i] for [i] from 1 to [n - 1], a
    positive number. *)
Theorem watterson75_formula (psc : PolymorphismSequenceContainer) (gapflag : bool) :
  aligned psc = true → 2 ≤ nbSequences psc →
  ∃ (S : nat) (theta : Q),
    polymorphicSiteNumber psc gapflag = inr S
    ∧ watterson75 psc gapflag = inr theta
    ∧ (0 < Qsum (λ i, 1 / Qnat i) (seq 1 (nbSequences psc - 1))
       ∧ a1 (_getUsefullValues (nbSequences psc))
         == Qsum (λ i, 1 / Qnat i) (seq 1 (nbSequences psc - 1))
       ∧ theta == Qnat S / Qsum (λ i, 1 / Qnat i) (seq 1 (nbSequences psc - 1)))%Q.
Proof.
  intros Hal Hn.
  assert (a1 (_getUsefullValues (nbSequences psc))
          == Qsum (λ i, 1 / Qnat i) (seq 1 (nbSequences psc - 1)))%Q as Ha.
  { simpl. rewrite sum_loop_Qsum. ring. }
  unfold watterson75, polymorphicSiteNumber. rewrite checked_aligned by done.
  eexists _, _. split; [done|]. split; [done|].
  split; [by apply harmonic_positive|]. split; [exact Ha|].
  by rewrite Ha.
Qed.

Lemma watterson75_formula_witness :
  ∃ (S : nat) (theta : Q),
    polymorphicSiteNumber psc_four true = inr S
    ∧ watterson75 psc_four true = inr theta
    ∧ (0 < Qsum (λ i, 1 / Qnat i) (seq 1 (4 - 1))
       ∧ a1 (_getUsefullValues 4) == Qsum (λ i, 1 / Qnat i) (seq 1 (4 - 1))
       ∧ theta == Qnat S / Qsum (λ i, 1 / Qnat i) (seq 1 (4 - 1)))%Q.
Proof.
  apply (watterson75_formula psc_four true); [reflexivity|vm_compute; lia].
Defined.

Section TajimaFacts.

(** A denominator [sqrt v] that is zero or negative has [v <= 0]. *)
Lemma sqrt_nonpos_radicand (v : Q) :
  (sqrt (Q2R v) <= 0)%R → Qle_bool v 0 = true.
Proof.
  intros Hs. apply Qle_bool_iff.
  destruct (Qlt_le_dec 0 v) as [Hpos|Hle]; [|exact Hle].
  apply Qlt_Rlt in Hpos. rewrite RMicromega.Q2R_0 in Hpos.
  apply sqrt_lt_R0 in Hpos. lra.
Qed.

Lemma tajima_ratio_undefined (S : nat) (num v : Q) :
  S ≤ 1 ∨ (sqrt (Q2R v) <= 0)%R →
  tajima_ratio S num v = inl UndefinedStatisticError.
Proof.
  intros [HS|Hv]; unfold tajima_ratio.
  - apply Nat.leb_le in HS. by rewrite HS.
  - apply sqrt_nonpos_radicand in Hv. rewrite Hv. by rewrite orb_true_r.
Qed.

(** Otherwise the test has a value, with a positive denominator. *)
Lemma tajima_ratio_defined (S : nat) (num v : Q) :
  1 < S → (0 < v)%Q →
  tajima_ratio S num v = inr (mkTajimaD num v) ∧ (0 < sqrt (Q2R v))%R.
Proof.
  intros HS Hv. unfold tajima_ratio.
  assert ((S <=? 1) = false) as -> by (apply Nat.leb_gt; lia).
  assert (Qle_bool v 0 = false) as ->.
  { apply not_true_is_false. rewrite Qle_bool_iff. by apply Qlt_not_le. }
  split; [done|].
  apply sqrt_lt_R0. apply Qlt_Rlt in Hv. by rewrite RMicromega.Q2R_0 in Hv.
Qed.
End TajimaFacts.

(** C8.  On an alignment, with [S] polymorphic sites and [eta] mutations:
    [tajimaDSS] and [tajimaDTNM] end with the computational error
    [UndefinedStatisticError] when [S] is at most one, and when their
    denominator, the square root of [e1 m + e2 m (m - 1)] for [m = S] and
    [m = eta], is zero or negative. *)
Theorem tajimaD_undefined (psc : PolymorphismSequenceContainer) (gapflag : bool) :
  aligned psc = true →
  ∃ S eta,
    polymorphicSiteNumber psc gapflag = inr S
    ∧ totNumberMutations psc gapflag = inr eta
    ∧ (S ≤ 1 ∨ (sqrt (Q2R (variance (nbSequences psc) S)) <= 0)%R →
       tajimaDSS psc gapflag = inl UndefinedStatisticError)
    ∧ (S ≤ 1 ∨ (sqrt (Q2R (variance (nbSequences psc) eta)) <= 0)%R →
       tajimaDTNM psc gapflag = inl UndefinedStatisticError).
Proof.
  intros Hal.
  unfold tajimaDSS, tajimaDTNM, watterson75, tajima83, polymorphicSiteNumber,
    totNumberMutations.
  rewrite !checked_aligned by done.
  eexists _, _. split; [done|]. split; [done|]. simpl.
  split; apply tajima_ratio_undefined.
Qed.

Lemma tajimaD_undefined_witness :
  tajimaDSS psc_gap false = inl UndefinedStatisticError
  ∧ tajimaDTNM psc_gap false = inl UndefinedStatisticError.
Proof.
  destruct (tajimaD_undefined psc_gap false) as (S & eta & HS & _ & H1 & H2);
    [reflexivity|].
  injection HS as <-.
  split; [apply H1|apply H2]; left; vm_compute; lia.
Defined.

Section LDFacts.
Import VectorTools.

(** The two alleles of a site with exactly two states. *)
Lemma major_minor_Some (symbols : list Z) a b :
  major_minor symbols = Some (a, b) →
  a ≠ b ∧ a ∈ symbols ∧ b ∈ symbols
  ∧ (∀ x, x ∈ symbols → x = a ∨ x = b)
  ∧ count_state b symbols ≤ count_state a symbols.
Proof.
  unfold major_minor.
  destruct (unique symbols) as [|x [|y [|z l]]] eqn:E; try done.
  assert (x ≠ y ∧ ∀ z, z ∈ symbols ↔ z = x ∨ z = y) as [Hxy Hin].
  { pose proof (NoDup_unique symbols) as Hnd. rewrite E in Hnd. split.
    - apply NoDup_cons in Hnd as [Hx _]. intros ->. apply Hx. by left.
    - intros z. rewrite <- (elem_of_unique symbols), E.
      rewrite !elem_of_cons, elem_of_nil. tauto. }
  destruct (count_state x symbols <? count_state y symbols) eqn:Hc;
    intros [= <- <-].
  - apply Nat.ltb_lt in Hc.
    split; [congruence|]. split; [apply Hin; tauto|]. split; [apply Hin; tauto|].
    split; [|lia]. intros z Hz. apply Hin in Hz. tauto.
  - apply Nat.ltb_ge in Hc.
    split; [done|]. split; [apply Hin; tauto|]. split; [apply Hin; tauto|].
    split; [|lia]. intros z Hz. apply Hin in Hz. tauto.
Qed.

Lemma ld_site_Some n keepsingleton freqmin s s' :
  ld_site n keepsingleton freqmin s = Some s' →
  ∃ a b, major_minor (site_symbols s) = Some (a, b) ∧ s' = recode a s.
Proof.
  unfold ld_site. case_decide; [done|].
  destruct (major_minor (site_symbols s)) as [[a b]|]; [|done].
  destruct (negb keepsingleton && _); [done|].
  destruct (Qle_bool _ _); [|done].
  intros [= <-]. by exists a, b.
Qed.

(** The container is made for every alignment. *)
Lemma generateLDContainer_returns psc keepsingleton freqmin :
  aligned psc = true →
  ∃ out, generateLDContainer psc keepsingleton freqmin = inr out.
Proof. intros H. unfold generateLDContainer. rewrite checked_aligned; eauto. Qed.
End LDFacts.

(** C9.  Whatever the two options, a site of the container that
    [generateLDContainer] returns comes from a site of the input with exactly
    two alleles, [a] at least as frequent as [b]; it has 1 in the sequences
    with [a] and 0 in the sequences with [b], and so exactly the two states
    0 and 1. *)
Theorem generateLDContainer_biallelic (psc out : PolymorphismSequenceContainer)
    (keepsingleton : bool) (freqmin : Q) (s' : Site) :
  generateLDContainer psc keepsingleton freqmin = inr out →
  s' ∈ psc_sites out →
  (0%Z ∈ site_symbols s' ∧ 1%Z ∈ site_symbols s'
   ∧ ∀ x, x ∈ site_symbols s' → x = 0%Z ∨ x = 1%Z)
  ∧ ∃ s a b,
      s ∈ psc_sites psc ∧ a ≠ b
      ∧ a ∈ site_symbols s ∧ b ∈ site_symbols s
      ∧ (∀ x, x ∈ site_symbols s → x = a ∨ x = b)
      ∧ count_state b (site_symbols s) ≤ count_state a (site_symbols s)
      ∧ site_position s' = site_position s
      ∧ site_symbols s'
        = (λ x, if decide (x = a) then 1%Z else 0%Z) <$> site_symbols s.
Proof.
  unfold generateLDContainer, checked. destruct (aligned psc); [|done].
  intros [= <-]. simpl. intros (s & Hs & Hld)%list_elem_of_omap.
  apply ld_site_Some in Hld as (a & b & Hmm & ->).
  apply major_minor_Some in Hmm as (Hab & Ha & Hb & Hall & Hcount).
  split.
  - simpl. repeat split.
    + apply list_elem_of_fmap. exists b. split; [|done]. by rewrite decide_False.
    + apply list_elem_of_fmap. exists a. split; [|done]. by rewrite decide_True.
    + intros x (y & -> & _)%list_elem_of_fmap. case_decide; tauto.
  - exists s, a, b. by repeat split.
Qed.

Lemma generateLDContainer_biallelic_witness :
  ∃ s a b,
    s ∈ psc_sites psc_four ∧ a ≠ b
    ∧ a ∈ site_symbols s ∧ b ∈ site_symbols s
    ∧ (∀ x, x ∈ site_symbols s → x = a ∨ x = b)
    ∧ count_state b (site_symbols s) ≤ count_state a (site_symbols s)
    ∧ site_position (mkSite 1 [0; 1; 1; 1]%Z) = site_position s
    ∧ site_symbols (mkSite 1 [0; 1; 1; 1]%Z)
      = (λ x, if decide (x = a) then 1%Z else 0%Z) <$> site_symbols s.
Proof.
  eapply (generateLDContainer_biallelic psc_four _ true 0 (mkSite 1 [0; 1; 1; 1]%Z)).
  - vm_compute. reflexivity.
  - apply list_elem_of_here.
Defined.

(** ** More on the fix of the duplicated names (lines 109-117) *)

Section FixFacts.
Context (ic mc : nat).

Lemma counted_snoc st rs r :
  counted ic mc st (rs ++ [r]) = (fix_row ic mc (counted ic mc st rs) r).2.
Proof. unfold counted. by rewrite foldl_snoc. Qed.

Lemma occurrences_snoc key rs r :
  occurrences ic mc key (rs ++ [r])
  = occurrences ic mc key rs + (if decide (row_key ic mc r = key) then 1 else 0).
Proof.
  unfold occurrences. rewrite filter_app, length_app. f_equal.
  case_decide.
  - by rewrite filter_cons_True.
  - by rewrite filter_cons_False.
Qed.

(** The map counts the rows of each key. *)
Lemma counted_lookup rs key :
  counted ic mc ∅ rs !! key
  = if decide (occurrences ic mc key rs = 0) then None
    else Some (occurrences ic mc key rs).
Proof.
  induction rs as [|r rs IH] using rev_ind; [done|].
  rewrite counted_snoc, occurrences_snoc. unfold fix_row. simpl.
  fold (row_key ic mc r).
  destruct (decide (row_key ic mc r = key)) as [->|Hne].
  - rewrite lookup_insert_eq, IH.
    destruct (decide (occurrences ic mc key rs = 0)) as [->|H0]; simpl.
    + done.
    + rewrite decide_False by lia. f_equal. lia.
  - rewrite lookup_insert_ne by done. rewrite IH, Nat.add_0_r. done.
Qed.

(** The row at a position after the loop is the turn of the loop on that
    row, with the map of the rows before it. *)
Lemma fix_rows_lookup rs :
  ∀ st i r, rs !! i = Some r →
    fix_rows ic mc st rs !! i
    = Some (fix_row ic mc (counted ic mc st (take i rs)) r).1.
Proof.
  induction rs as [|r0 rs IH]; intros st i r Hi; [done|].
  destruct i as [|i]; simpl in *.
  - by injection Hi as ->.
  - by apply IH.
Qed.

Lemma fix_rows_length rs : ∀ st, length (fix_rows ic mc st rs) = length rs.
Proof. induction rs as [|r rs IH]; intros st; simpl; [done|]. by rewrite IH. Qed.

Lemma fix_row_shape st r :
  length (fix_row ic mc st r).1 = length r
  ∧ ∀ j, j ≠ ic → cell (fix_row ic mc st r).1 j = cell r j.
Proof.
  unfold fix_row. simpl. destruct (st !! _); [|done].
  split; [apply length_insert|]. intros j Hj. by apply cell_insert_ne.
Qed.

(** The name of a row after the turn of the loop, when the map counts the
    rows before it. *)
Lemma fix_row_name rs r :
  ic < length r →
  cell (fix_row ic mc (counted ic mc ∅ rs) r).1 ic
  = suffixed (cell r ic) (occurrences ic mc (row_key ic mc r) rs).
Proof.
  intros Hlt. unfold fix_row, suffixed. simpl. fold (row_key ic mc r).
  rewrite counted_lookup. case_decide; [done|].
  by rewrite cell_insert_eq.
Qed.

Lemma occurrences_take_lt rs :
  ∀ i j r, i < j → rs !! i = Some r →
    occurrences ic mc (row_key ic mc r) (take i rs)
    < occurrences ic mc (row_key ic mc r) (take j rs).
Proof.
  unfold occurrences.
  induction rs as [|r0 rs IH]; intros i j r Hij Hi; [done|].
  destruct j as [|j]; [lia|]. destruct i as [|i]; simpl in *.
  - injection Hi as ->. rewrite filter_cons_True by done. simpl. lia.
  - specialize (IH i j r ltac:(lia) Hi).
    destruct (decide (row_key ic mc r0 = row_key ic mc r)).
    + rewrite !filter_cons_True by done. simpl. lia.
    + by rewrite !filter_cons_False by done.
Qed.
End FixFacts.

Lemma suffixed_inj name k1 k2 : suffixed name k1 = suffixed name k2 → k1 = k2.
Proof.
  unfold suffixed. intros H. repeat case_decide; subst; try done.
  - exfalso. apply (f_equal String.length) in H.
    rewrite !string_length_app in H. simpl in H. lia.
  - exfalso. apply (f_equal String.length) in H.
    rewrite !string_length_app in H. simpl in H. lia.
  - apply String.app_inj, String.app_inj in H.
    apply (inj pretty) in H. lia.
Qed.

(** The shape of the table after the loop. *)
Lemma fix_names_shape_aux (dt : DataTable) (ic mc : nat) :
  colNames (fix_names ic mc dt) = colNames dt
  ∧ length (rows (fix_names ic mc dt)) = length (rows dt)
  ∧ (wf_table dt → wf_table (fix_names ic mc dt))
  ∧ (∀ j, j ≠ ic → column (fix_names ic mc dt) j = column dt j).
Proof.
  assert (∀ i r', rows (fix_names ic mc dt) !! i = Some r' →
            ∃ r st, rows dt !! i = Some r ∧ r' = (fix_row ic mc st r).1) as Hrow.
  { intros i r' Hi. simpl in Hi.
    assert (i < length (rows dt)) as Hlt.
    { apply lookup_lt_Some in Hi. by rewrite fix_rows_length in Hi. }
    destruct (lookup_lt_is_Some_2 _ _ Hlt) as [r Hr].
    rewrite (fix_rows_lookup ic mc _ _ _ _ Hr) in Hi. injection Hi as <-.
    by eexists _, _. }
  split; [done|]. split; [apply fix_rows_length|]. split.
  - unfold wf_table. rewrite !Forall_lookup. intros Hwf i r' Hi.
    destruct (Hrow i r' Hi) as (r & st & Hr & ->).
    destruct (fix_row_shape ic mc st r) as [Hlen _].
    rewrite Hlen. by apply (Hwf i).
  - intros j Hj. unfold column. apply list_eq. intros i.
    rewrite !list_lookup_fmap.
    destruct (rows (fix_names ic mc dt) !! i) as [r'|] eqn:Hi.
    + destruct (Hrow i r' Hi) as (r & st & -> & ->).
      destruct (fix_row_shape ic mc st r) as [_ Hc]. simpl. by rewrite Hc.
    + apply lookup_ge_None in Hi. simpl in Hi. rewrite fix_rows_length in Hi.
      apply lookup_ge_None in Hi. by rewrite Hi.
Qed.


(** X1.  The loop of lines 109-117 keeps the header, the number of rows and
    the length of each row, and it leaves every column but the one of the
    sample names as it was. *)
Theorem fix_names_shape (dt : DataTable) (ic mc : nat) :
  colNames (fix_names ic mc dt) = colNames dt
  ∧ length (rows (fix_names ic mc dt)) = length (rows dt)
  ∧ (wf_table dt → wf_table (fix_names ic mc dt))
  ∧ (∀ j, j ≠ ic → column (fix_names ic mc dt) j = column dt j).
Proof. apply fix_names_shape_aux. Qed.

(** The name of the row at a position after the loop. *)
Lemma fixed_name_lookup (dt : DataTable) (ic mc i : nat) (r : list string) :
  rows dt !! i = Some r → ic < length r →
  column (fix_names ic mc dt) ic !! i
  = Some (suffixed (cell r ic)
            (occurrences ic mc (row_key ic mc r) (take i (rows dt)))).
Proof.
  intros Hi Hlt. unfold column. rewrite list_lookup_fmap. simpl.
  rewrite (fix_rows_lookup ic mc _ _ _ _ Hi).
  by rewrite <- (fix_row_name ic mc _ r Hlt).
Qed.

(** X2.  After the loop of lines 109-117, a row keeps its sample name when no
    row before it has the same key (name and marker joined), and otherwise
    gets the name with [_] and the decimal writing of [k + 1], for the
    number [k] of rows before it with that key. *)
Theorem fix_names_suffix (dt : DataTable) (ic mc i : nat) (r : list string) :
  rows dt !! i = Some r → ic < length r →
  column (fix_names ic mc dt) ic !! i
  = Some (suffixed (cell r ic)
            (occurrences ic mc (row_key ic mc r) (take i (rows dt)))).
Proof. apply fixed_name_lookup. Qed.

Lemma fix_names_suffix_witness :
  column (fix_names 0 1 tbl_three_calls) 0 !! 4 = Some ("S" +:+ "_3").
Proof.
  apply (fix_names_suffix tbl_three_calls 0 1 4 ["S"; "M"; "A"]);
    [reflexivity|simpl; lia].
Defined.

(** X3.  Two rows with the same sample name and the same marker have
    different sample names after the loop of lines 109-117. *)
Theorem fix_names_separates (dt : DataTable) (ic mc i j : nat)
    (ri rj : list string) :
  i < j → rows dt !! i = Some ri → rows dt !! j = Some rj →
  ic < length ri → ic < length rj →
  cell ri ic = cell rj ic → cell ri mc = cell rj mc →
  column (fix_names ic mc dt) ic !! i ≠ column (fix_names ic mc dt) ic !! j.
Proof.
  intros Hij Hi Hj Hli Hlj Hn Hm.
  rewrite (fixed_name_lookup dt ic mc i ri Hi Hli).
  rewrite (fixed_name_lookup dt ic mc j rj Hj Hlj).
  assert (row_key ic mc rj = row_key ic mc ri) as Hk
    by (unfold row_key; by rewrite Hn, Hm).
  rewrite Hk, <- Hn. intros [= H%suffixed_inj].
  pose proof (occurrences_take_lt ic mc (rows dt) i j ri Hij Hi). lia.
Qed.

Lemma fix_names_separates_witness :
  column (fix_names 0 1 tbl_three_calls) 0 !! 0
  ≠ column (fix_names 0 1 tbl_three_calls) 0 !! 2.
Proof.
  apply (fix_names_separates tbl_three_calls 0 1 0 2 ["S"; "M"; "A"] ["S"; "M"; "A"]);
    try reflexivity; simpl; lia.
Defined.

(** The names that [read] registers in a new dataset are the distinct names
    of the table after the loop. *)
Lemma read_new_names (dt : DataTable) (ic mc : nat) :
  VectorTools.which (colNames dt) "Sample Name" = Some ic →
  VectorTools.which (colNames dt) "Marker" = Some mc →
  individual_names (ds (read_new (Some dt)).2) = ind_names_of dt ic mc.
Proof.
  intros Hs Hm.
  destruct (read_new_cases dt)
    as [(col & Hc & Hnot & _)|(ic' & mc' & al & Hs' & Hm' & _ & _ & Hw & _)].
  { exfalso. apply Hnot.
    destruct Hc as [->| ->]; eapply list_elem_of_lookup_2, which_Some; done. }
  rewrite Hs in Hs'. rewrite Hm in Hm'. injection Hs' as <-. injection Hm' as <-.
  destruct Hw as (inds & -> & Hids & _). by rewrite shape_names.
Qed.

(** X4.  The key of line 111 joins the name and the marker with nothing in
    between: in a table of two rows with different sample names whose names
    and markers join to the same text, the second row is taken for a
    duplicate; it is renamed with [_2], and its own name is not registered
    in the dataset. *)
Theorem joined_key_renames (dt : DataTable) (r1 r2 : list string) (ic mc : nat) :
  wf_table dt → rows dt = [r1; r2] →
  VectorTools.which (colNames dt) "Sample Name" = Some ic →
  VectorTools.which (colNames dt) "Marker" = Some mc →
  cell r1 ic ≠ cell r2 ic →
  cell r1 ic +:+ cell r1 mc = cell r2 ic +:+ cell r2 mc →
  column (fix_names ic mc dt) ic = [cell r1 ic; cell r2 ic +:+ "_2"]
  ∧ individual_names (ds (read_new (Some dt)).2)
    = VectorTools.unique [cell r1 ic; cell r2 ic +:+ "_2"]
  ∧ cell r2 ic ∉ individual_names (ds (read_new (Some dt)).2).
Proof.
  intros Hwf Hrows Hs Hm Hne Hkey.
  assert (ic < length r2) as Hlt.
  { unfold wf_table in Hwf. rewrite Hrows in Hwf.
    apply Forall_cons in Hwf as [_ [-> _]%Forall_cons].
    apply which_Some in Hs. by eapply lookup_lt_Some. }
  assert (column (fix_names ic mc dt) ic = [cell r1 ic; cell r2 ic +:+ "_2"]) as Hcol.
  { unfold column, fix_names. simpl. rewrite Hrows.
    unfold fix_rows, fix_row. rewrite lookup_empty. simpl.
    rewrite Hkey, lookup_insert_eq. simpl. by rewrite cell_insert_eq. }
  rewrite (read_new_names dt ic mc Hs Hm). unfold ind_names_of. rewrite Hcol.
  split; [done|]. split; [done|].
  rewrite elem_of_unique, !elem_of_cons, elem_of_nil.
  intros [H|[H|[]]]; [by apply Hne|].
  by apply (suffixed_name_differs (cell r2 ic)).
Qed.

Lemma joined_key_renames_witness :
  column (fix_names 0 1 tbl_joined_key) 0 = ["ab"; "a" +:+ "_2"]
  ∧ individual_names (ds (read_new (Some tbl_joined_key)).2)
    = VectorTools.unique ["ab"; "a" +:+ "_2"]
  ∧ "a" ∉ individual_names (ds (read_new (Some tbl_joined_key)).2).
Proof.
  apply (joined_key_renames tbl_joined_key ["ab"; "c"; "A"] ["a"; "bc"; "A"] 0 1);
    try reflexivity; [repeat constructor|done].
Defined.

(** The loop of lines 109-117 on a duplicated call next to a sample that has
    the new name already: for any name [n] and marker [m], when [n] is
    called twice at [m] and another sample is called [n_2] at [m], the
    second call of [n] becomes [n_2] too, and the three rows give two
    individuals. *)
Example suffix_clash_three_rows (n m : string) :
  column (fix_names 0 1 (tbl_suffix_clash n m)) 0 = [n; n +:+ "_2"; n +:+ "_2"]
  ∧ column (fix_names 0 1 (tbl_suffix_clash n m)) 1 = [m; m; m]
  ∧ individual_names (ds (read_new (Some (tbl_suffix_clash n m))).2)
    = [n; n +:+ "_2"].
Proof.
  assert (column (fix_names 0 1 (tbl_suffix_clash n m)) 0
          = [n; n +:+ "_2"; n +:+ "_2"]) as Hcol.
  { assert (n +:+ m ≠ (n +:+ "_2") +:+ m) as Hk.
    { intros H. apply (f_equal String.length) in H.
      rewrite !string_length_app in H. simpl in H. lia. }
    unfold column, fix_names, tbl_suffix_clash. simpl.
    unfold fix_row, cell. simpl. rewrite lookup_empty. simpl.
    rewrite lookup_insert_eq. simpl.
    rewrite !lookup_insert_ne by done.
    by rewrite lookup_empty. }
  split; [done|]. split.
  { destruct (fix_names_shape_aux (tbl_suffix_clash n m) 0 1) as (_ & _ & _ & H).
    by rewrite H. }
  rewrite (read_new_names _ 0 1) by done.
  unfold ind_names_of. rewrite Hcol. simpl.
  pose proof (suffixed_name_differs n) as Hne.
  rewrite (filter_cons_False (λ y, y ≠ n +:+ "_2")) by (intros H; by apply H).
  rewrite filter_nil.
  by rewrite !filter_cons_True by congruence.
Qed.

(** X5.  The loop of lines 109-117 does not look at the names it makes: when
    a row is renamed, because [k] rows before it have its key, and another
    row, the first of its own key, is called by the new name already, at the
    same marker, then the two rows have the same sample name and the same
    marker after the loop. *)
Theorem suffix_clash (dt : DataTable) (ic mc i j k : nat) (ri rj : list string) :
  rows dt !! i = Some ri → rows dt !! j = Some rj →
  ic < length ri → ic < length rj → mc ≠ ic →
  occurrences ic mc (row_key ic mc rj) (take j (rows dt)) = k → 0 < k →
  occurrences ic mc (row_key ic mc ri) (take i (rows dt)) = 0 →
  cell ri ic = cell rj ic +:+ "_" +:+ TextTools.toString (k + 1) →
  cell ri mc = cell rj mc →
  i ≠ j
  ∧ ∃ name marker,
      column (fix_names ic mc dt) ic !! i = Some name
      ∧ column (fix_names ic mc dt) ic !! j = Some name
      ∧ column (fix_names ic mc dt) mc !! i = Some marker
      ∧ column (fix_names ic mc dt) mc !! j = Some marker.
Proof.
  intros Hi Hj Hli Hlj Hne Hk Hpos Hfirst Hname Hmarker. split.
  { intros ->. assert (ri = rj) as -> by congruence.
    apply (f_equal String.length) in Hname.
    rewrite !string_length_app in Hname. simpl in Hname. lia. }
  exists (cell ri ic), (cell ri mc).
  rewrite (fixed_name_lookup dt ic mc i ri Hi Hli), Hfirst.
  rewrite (fixed_name_lookup dt ic mc j rj Hj Hlj), Hk.
  destruct (fix_names_shape_aux dt ic mc) as (_ & _ & _ & Hcols).
  rewrite (Hcols mc Hne). unfold column. rewrite !list_lookup_fmap, Hi, Hj.
  simpl. unfold suffixed. rewrite decide_True by done.
  rewrite decide_False by lia. by rewrite Hname, Hmarker.
Qed.

Lemma suffix_clash_witness :
  2 ≠ 1
  ∧ ∃ name marker,
      column (fix_names 0 1 tbl_collision) 0 !! 2 = Some name
      ∧ column (fix_names 0 1 tbl_collision) 0 !! 1 = Some name
      ∧ column (fix_names 0 1 tbl_collision) 1 !! 2 = Some marker
      ∧ column (fix_names 0 1 tbl_collision) 1 !! 1 = Some marker.
Proof.
  apply (suffix_clash tbl_collision 0 1 2 1 1 ["a_2"; "M"; "A"] ["a"; "M"; "A"]);
    try reflexivity; simpl; lia.
Defined.

(** ** The allele columns (lines 157-161) *)

Lemma prefix_app (p s : string) :
  String.prefix p s = true ↔ ∃ t, s = p +:+ t.
Proof.
  revert s. induction p as [|c p IH]; intros s.
  - split; [intros _; by exists s|]. by destruct s.
  - destruct s as [|c' s]; [split; [done|by intros [t ?]]|]. simpl.
    destruct (Ascii.ascii_dec c c') as [->|Hne].
    + rewrite IH. split; intros [t Ht]; exists t.
      * by rewrite Ht.
      * by injection Ht.
    + split; [done|]. intros [t [= ? ?]]. done.
Qed.

Lemma count_cons (c : ascii) (s p : string) :
  TextTools.count (String c s) p
  = (if String.prefix p (String c s) then 1 else 0) + TextTools.count s p.
Proof. reflexivity. Qed.

(** [TextTools::count] is not zero exactly on the texts that have the
    pattern somewhere. *)
Lemma count_nonzero (s p : string) :
  p ≠ "" → TextTools.count s p ≠ 0 ↔ ∃ a b, s = a +:+ p +:+ b.
Proof.
  intros Hp. induction s as [|c s IH].
  - split; [done|]. intros (a & b & H).
    destruct a; [|done]. destruct p; done.
  - rewrite count_cons. split.
    + intros Hc. destruct (String.prefix p (String c s)) eqn:Hpre.
      * apply prefix_app in Hpre as [t Ht]. exists "", t. by rewrite Ht.
      * apply IH in Hc as (a & b & ->).
        by exists (String c a), b.
    + intros (a & b & H). destruct a as [|c' a].
      * assert (String.prefix p (String c s) = true) as ->; [|lia].
        apply prefix_app. by exists b.
      * injection H as -> ->.
        assert (TextTools.count (a +:+ p +:+ b) p ≠ 0) by (apply IH; eauto).
        lia.
Qed.

Lemma alleles_cols_from_spec names :
  ∀ k c, c ∈ GeneMapperCsvExport.alleles_cols_from k names
         ↔ ∃ n, k ≤ c ∧ names !! (c - k) = Some n
                ∧ TextTools.count n "Allele " ≠ 0.
Proof.
  induction names as [|n names IH]; intros k c; simpl.
  - split; [by intros ?%elem_of_nil|by intros (? & _ & ? & _)].
  - assert (c ∈ GeneMapperCsvExport.alleles_cols_from (S k) names
            ↔ ∃ n', k < c ∧ (n :: names) !! (c - k) = Some n'
                    ∧ TextTools.count n' "Allele " ≠ 0) as Hrest.
    { rewrite IH. split; intros (n' & Hk & Hn & Hc); exists n';
        (split; [lia|]); (split; [|done]).
      - by replace (c - k) with (S (c - S k)) by lia.
      - by replace (c - k) with (S (c - S k)) in Hn by lia. }
    case_decide as H0.
    + rewrite Hrest. split; intros (n' & Hk & Hn & Hc); exists n'.
      * split; [lia|done].
      * split; [|done]. destruct (decide (c = k)) as [->|]; [|lia].
        rewrite Nat.sub_diag in Hn. simpl in Hn. congruence.
    + rewrite elem_of_cons, Hrest. split.
      * intros [->|(n' & Hk & Hn & Hc)].
        -- exists n. rewrite Nat.sub_diag. done.
        -- exists n'. split; [lia|done].
      * intros (n' & Hk & Hn & Hc).
        destruct (decide (c = k)) as [->|]; [by left|].
        right. exists n'. split; [lia|done].
Qed.

Lemma alleles_cols_from_sorted names :
  ∀ k, StronglySorted lt (GeneMapperCsvExport.alleles_cols_from k names).
Proof.
  induction names as [|n names IH]; intros k; simpl; [constructor|].
  case_decide; [apply IH|]. constructor; [apply IH|].
  apply Forall_forall. intros c (n' & Hk & _)%alleles_cols_from_spec. lia.
Qed.

(** X6.  The allele columns of lines 157-161 are the positions of the
    column names that have the text "Allele ", with its space, somewhere in
    them, in increasing order. *)
Theorem allele_columns_spec (dt : DataTable) :
  (∀ c, c ∈ allele_columns dt
        ↔ ∃ n a b, colNames dt !! c = Some n ∧ n = a +:+ "Allele " +:+ b)
  ∧ StronglySorted lt (allele_columns dt).
Proof.
  split; [|apply alleles_cols_from_sorted].
  intros c. unfold allele_columns. rewrite alleles_cols_from_spec.
  rewrite Nat.sub_0_r. split.
  - intros (n & _ & Hn & (a & b & ->)%count_nonzero); [|done].
    by exists (a +:+ "Allele " +:+ b), a, b.
  - intros (n & a & b & Hn & ->). eexists. split; [lia|]. split; [done|].
    apply count_nonzero; [done|]. by exists a, b.
Qed.

Lemma not_allele_column (dt : DataTable) (c : nat) (n : string) :
  colNames dt !! c = Some n → TextTools.count n "Allele " = 0 →
  c ∉ allele_columns dt.
Proof.
  intros Hn H0. unfold allele_columns. rewrite alleles_cols_from_spec.
  intros (n' & _ & Hn' & Hc). rewrite Nat.sub_0_r in Hn'. congruence.
Qed.

(** X7.  The columns that the names "Sample Name" and "Marker" resolve to
    are never among the allele columns: the genotype assembly does not read
    a sample name or a marker as an allele call. *)
Theorem name_columns_not_alleles (dt : DataTable) (ic mc : nat) :
  VectorTools.which (colNames dt) "Sample Name" = Some ic →
  VectorTools.which (colNames dt) "Marker" = Some mc →
  (ic ∉ allele_columns dt) ∧ (mc ∉ allele_columns dt).
Proof.
  intros Hs%which_Some Hm%which_Some.
  split; eapply not_allele_column; done.
Qed.

Lemma name_columns_not_alleles_witness :
  (0 ∉ allele_columns tbl_single) ∧ (1 ∉ allele_columns tbl_single).
Proof. by apply (name_columns_not_alleles tbl_single 0 1). Defined.

(** ** The registry that the loops of lines 156-185 build *)

Section RegistryFacts.
Import VectorTools GeneMapperCsvExport.
Context (dt : DataTable) (mc : nat).

Lemma head_unique {A : Type} `{EqDecision A} (l : list A) :
  head (unique l) = head l.
Proof. by destruct l. Qed.

(** The cells at the positions of a marker are the cells of its rows. *)
Lemma positions_cells (c : nat) (m : string) (rs : list (list string)) :
  ∀ pre,
    (λ k, cell (default [] ((pre ++ rs) !! k)) c)
      <$> positions_from (length pre) ((λ r, cell r mc) <$> rs) m
    = (λ r, cell r c) <$> filter (λ r, cell r mc = m) rs.
Proof.
  induction rs as [|r rs IH]; intros pre; [done|].
  specialize (IH (pre ++ [r])).
  rewrite <- app_assoc, length_app, Nat.add_1_r in IH. simpl in IH.
  simpl. destruct (decide (cell r mc = m)) as [Hm|Hm].
  - rewrite filter_cons_True by done. simpl.
    rewrite list_lookup_middle by done. simpl. f_equal. exact IH.
  - rewrite filter_cons_False by done. apply IH.
Qed.

Lemma m_allele_labels (c : nat) (m : string) :
  m_allele dt (positions_from 0 (column dt mc) m) c
  = unique (marker_labels dt mc m c).
Proof.
  unfold m_allele, marker_labels, dt_at, column. f_equal. f_equal.
  apply (positions_cells c m (rows dt) []).
Qed.

(** Lines 177-183 for a marker: the first label, if there is one. *)
Lemma register_marker_first (c : nat) (al : list (option LocusInfo)) (m : string) :
  register_marker dt c al (m, positions_from 0 (column dt mc) m)
  = match first_label dt mc m c with
    | None => inr al
    | Some a => LocusOps.addAlleleInfoByLocusName m a al
    end.
Proof.
  unfold register_marker, first_label. simpl.
  rewrite m_allele_labels.
  pose proof (head_unique (marker_labels dt mc m c)) as H.
  destruct (unique (marker_labels dt mc m c)), (marker_labels dt mc m c);
    simpl in H; by try injection H as ->.
Qed.

Lemma loci_info_from_pos (col : list string) ms :
  ∀ k al acc al' pos,
    loci_info_from col k ms al acc = inr (al', pos) →
    pos = acc ++ (positions_from 0 col <$> ms).
Proof.
  induction ms as [|m ms IH]; intros k al acc al' pos; simpl.
  - intros [= _ <-]. by rewrite app_nil_r.
  - destruct (LocusOps.setLocusInfo k _ al) as [e|al1]; [done|]. simpl.
    unfold whichAll.
    destruct (positions_from 0 col m) as [|p ps] eqn:Hp; [done|]. simpl.
    intros H%IH. by rewrite H, <- app_assoc.
Qed.

Lemma zip_fmap_diag {A B : Type} (f : A → B) (l : list A) :
  zip l (f <$> l) = (λ x, (x, f x)) <$> l.
Proof. induction l as [|x l IH]; [done|]. simpl. f_equal. exact IH. Qed.

Lemma addAlleleInfo_elem id li a :
  a ∈ locus_alleles (LocusOps.addAlleleInfo id li)
  ↔ a ∈ locus_alleles li ∨ a = id.
Proof.
  unfold LocusOps.addAlleleInfo. case_decide; simpl.
  - split; [by left|]. by intros [?| ->].
  - rewrite elem_of_app, list_elem_of_singleton. done.
Qed.

Lemma addAlleleInfo_NoDup id li :
  NoDup (locus_alleles li) → NoDup (locus_alleles (LocusOps.addAlleleInfo id li)).
Proof.
  intros Hnd. unfold LocusOps.addAlleleInfo. case_decide; simpl; [done|].
  apply NoDup_app. split; [done|]. split; [|apply NoDup_singleton].
  intros x Hx ->%list_elem_of_singleton. done.
Qed.

(** The locus of a name, in a registry without two loci of one name. *)
Lemma same_locus (al : list (option LocusInfo)) i j li lj :
  NoDup (names_of al) → al !! i = Some (Some li) → al !! j = Some (Some lj) →
  locus_name li = locus_name lj → i = j.
Proof.
  intros Hnd Hi Hj Hn.
  apply (NoDup_lookup (names_of al) i j (Some (locus_name li)) Hnd).
  - unfold names_of. by rewrite list_lookup_fmap, Hi.
  - unfold names_of. by rewrite list_lookup_fmap, Hj, Hn.
Qed.

(** One marker in the turn of a column. *)
Lemma register_marker_upto cols c done al m al' :
  NoDup (names_of al) → m ∉ done →
  registers_upto dt mc cols c done al →
  register_marker dt c al (m, positions_from 0 (column dt mc) m) = inr al' →
  registers_upto dt mc cols c (m :: done) al' ∧ names_of al' = names_of al.
Proof.
  intros Hnd Hm Hreg. rewrite register_marker_first.
  destruct (first_label dt mc m c) as [a|] eqn:Hfl.
  - intros (i & li0 & Hi & Hname & ->)%addAlleleInfoByLocusName_inv.
    split; [|by apply names_of_insert_allele].
    intros li [j Hj]%list_elem_of_lookup.
    apply list_lookup_insert_Some in Hj as [(-> & [= <-] & _)|[Hne Hj]].
    + assert (Some li0 ∈ al) as Hin by (by eapply list_elem_of_lookup_2).
      destruct (Hreg li0 Hin) as [Hnd0 Hiff].
      split; [by apply addAlleleInfo_NoDup|].
      intros a'. rewrite addAlleleInfo_elem, addAlleleInfo_name, Hiff, Hname.
      split.
      * intros [[?|[Hd _]]| ->]; [by left|done|].
        right. split; [by left|done].
      * intros [?|[_ Hfl']]; [left; by left|]. right. congruence.
    + assert (Some li ∈ al) as Hin by (by eapply list_elem_of_lookup_2).
      assert (locus_name li ≠ m) as Hnm.
      { intros Heq. apply Hne. eapply same_locus; [done..|]. congruence. }
      destruct (Hreg li Hin) as [Hnd0 Hiff]. split; [done|].
      intros a'. rewrite Hiff, elem_of_cons. split.
      * intros [?|[? ?]]; [by left|]. right. split; [by right|done].
      * intros [?|[[?|?] ?]]; [by left|done|]. by right.
  - intros [= <-]. split; [|done].
    intros li Hin. destruct (Hreg li Hin) as [Hnd0 Hiff]. split; [done|].
    intros a'. rewrite Hiff, elem_of_cons. split.
    + intros [?|[? ?]]; [by left|]. right. split; [by right|done].
    + intros [?|[[->|?] Hfl']]; [by left|congruence|]. right. done.
Qed.

(** All the markers in the turn of a column. *)
Lemma register_markers_upto cols c ms :
  ∀ done al al',
    NoDup (names_of al) → NoDup ms → (∀ m, m ∈ ms → m ∉ done) →
    registers_upto dt mc cols c done al →
    Res_foldl (register_marker dt c) al
      ((λ m, (m, positions_from 0 (column dt mc) m)) <$> ms) = inr al' →
    registers_upto dt mc cols c (rev ms ++ done) al'
    ∧ names_of al' = names_of al.
Proof.
  induction ms as [|m ms IH]; intros done al al' Hnd Hms Hfresh Hreg; simpl.
  - by intros [= <-].
  - destruct (register_marker dt c al _) as [e|al1] eqn:E; [done|]. simpl.
    apply NoDup_cons in Hms as [Hm Hms].
    destruct (register_marker_upto cols c done al m al1 Hnd) as [Hreg1 Hn1];
      [apply Hfresh; by left|done..|].
    intros Hrest.
    destruct (IH (m :: done) al1 al') as [Hreg' Hn']; try done.
    + by rewrite Hn1.
    + intros m' Hm' [->|Hd]%elem_of_cons; [done|].
      apply (Hfresh m'); [by right|done].
    + split; [|congruence]. by rewrite <- app_assoc.
Qed.

(** All the columns. *)
Lemma register_alleles_registers cols ms :
  ∀ done al al',
    NoDup ms → names_of al = Some <$> ms →
    registers dt mc done al →
    register_alleles dt cols ms (positions_from 0 (column dt mc) <$> ms) al
    = inr al' →
    registers dt mc (done ++ cols) al' ∧ names_of al' = Some <$> ms.
Proof.
  unfold register_alleles. rewrite zip_fmap_diag.
  induction cols as [|c cols IH]; intros done al al' Hms Hn Hreg; simpl.
  - intros [= <-]. by rewrite app_nil_r.
  - destruct (Res_foldl (register_marker dt c) al _) as [e|al1] eqn:E; [done|].
    simpl. intros Hrest.
    assert (NoDup (names_of al)) as Hnd.
    { rewrite Hn. by apply (NoDup_fmap_2 _). }
    destruct (register_markers_upto done c ms [] al al1) as [Hreg1 Hn1];
      try done.
    { intros m _ ?%elem_of_nil. done. }
    { intros li Hin. destruct (Hreg li Hin) as [H1 H2]. split; [done|].
      intros a. rewrite H2. split; [by left|]. by intros [?|[?%elem_of_nil _]]. }
    replace (done ++ c :: cols) with ((done ++ [c]) ++ cols)
      by (by rewrite <- app_assoc).
    apply (IH (done ++ [c]) al1 al'); [done|congruence| |done].
    intros li Hin. destruct (Hreg1 li Hin) as [H1 H2]. split; [done|].
    intros a. rewrite H2. rewrite app_nil_r.
    assert (locus_name li ∈ rev ms) as Hin'.
    { rewrite list_elem_of_In, <- in_rev, <- list_elem_of_In.
      assert (Some (locus_name li) ∈ names_of al1) as Hs.
      { unfold names_of. apply list_elem_of_fmap. by exists (Some li). }
      rewrite Hn1, Hn in Hs.
      by apply list_elem_of_fmap in Hs as (m & [= ->] & ?). }
    split.
    + intros [(c' & Hc' & Hfl)|[_ Hfl]].
      * exists c'. split; [|done]. apply elem_of_app. by left.
      * exists c. split; [|done]. apply elem_of_app. right. by left.
    + intros (c' & [Hc'| ->%list_elem_of_singleton]%elem_of_app & Hfl).
      * left. by exists c'.
      * right. done.
Qed.

(** The registry that [read] builds: one locus per distinct marker, in the
    order of the markers, with the first labels of the allele columns. *)
Lemma built_registry_ok :
  ∃ al, built_registry dt mc = inr al
        ∧ names_of al = Some <$> markers_of dt mc
        ∧ registers dt mc (allele_columns dt) al.
Proof.
  unfold built_registry.
  destruct (loci_info_from_ok (column dt mc) (markers_of dt mc) [] [])
    as (pos & Hloci & Hpos).
  { intros m. unfold markers_of. by rewrite elem_of_unique. }
  simpl in Hloci. rewrite Hloci. simpl.
  apply loci_info_from_pos in Hloci as Hp. simpl in Hp. subst pos.
  destruct (register_alleles_ok dt (allele_columns dt) (markers_of dt mc)
              (positions_from 0 (column dt mc) <$> markers_of dt mc)
              (new_locus <$> markers_of dt mc)) as (al & Hreg & Hnames).
  { intros m Hm'. rewrite names_of_new. by apply list_elem_of_fmap_2. }
  exists al. split; [done|].
  destruct (register_alleles_registers (allele_columns dt) (markers_of dt mc)
              [] _ al (NoDup_unique _) (names_of_new _)) as [H1 H2]; [|done..].
  intros li (m & [= ->] & _)%list_elem_of_fmap. simpl.
  split; [constructor|]. intros a. split; [by intros ?%elem_of_nil|].
  by intros (c & ?%elem_of_nil & _).
Qed.
End RegistryFacts.

(** ** The dataset that [read] fills *)

Section DatasetFacts.
Import VectorTools GeneMapperCsvExport.
Context (dt : DataTable) (ic mc : nat).
Context (Hs : which (colNames dt) "Sample Name" = Some ic).
Context (Hm : which (colNames dt) "Marker" = Some mc).

Lemma fixed_marker_column : column (fix_names ic mc dt) mc = column dt mc.
Proof.
  unfold column, fix_names. simpl. apply fix_rows_marker.
  by apply (columns_differ dt).
Qed.

(** [read] in a new dataset, up to the genotype assembly, with the registry
    of [built_registry]. *)
Lemma read_new_run (al : list (option LocusInfo)) :
  built_registry (fix_names ic mc dt) mc = inr al →
  read_new (Some dt)
  = forM_ (rows (fix_names ic mc dt)) (read_row ic mc (allele_columns dt))
      (loaded (ind_names_of dt ic mc) (markers_of dt mc) al).
Proof.
  unfold built_registry, markers_of. rewrite fixed_marker_column.
  fold (markers_of dt mc).
  destruct (loci_info_from (column dt mc) 0 (markers_of dt mc) _ [])
    as [e|[al0 pos]] eqn:Hloci; [done|]. simpl.
  change (allele_columns (fix_names ic mc dt)) with (allele_columns dt).
  intros Hreg.
  unfold read_new, read, getColumn, colIndex. simpl.
  rewrite Hs, Hm. simpl.
  repeat (rewrite bind_lift; simpl).
  repeat (rewrite bind_update; simpl).
  erewrite bind_inr; [|apply add_individuals_run].
  rewrite bind_lift. simpl.
  rewrite fixed_marker_column.
  fold (markers_of dt mc). rewrite bind_lift, Hloci.
  rewrite bind_lift. fold (allele_columns dt). rewrite Hreg.
  rewrite bind_update. simpl.
  repeat (rewrite bind_lift; simpl). reflexivity.
Qed.

(** The rows after the fix, next to the rows of the table. *)
Lemma fix_rows_rel (rs : list (list string)) :
  ∀ st, Forall2 (λ r r', ∀ j, j ≠ ic → cell r' j = cell r j)
          rs (fix_rows ic mc st rs).
Proof.
  induction rs as [|r rs IH]; intros st; simpl; [constructor|].
  constructor; [|apply IH]. apply fix_row_shape.
Qed.

Lemma marker_labels_rel (rs rs' : list (list string)) (m : string) (c : nat) :
  Forall2 (λ r r', ∀ j, j ≠ ic → cell r' j = cell r j) rs rs' →
  c ≠ ic →
  (λ r, cell r c) <$> filter (λ r, cell r mc = m) rs'
  = (λ r, cell r c) <$> filter (λ r, cell r mc = m) rs.
Proof.
  intros Hrel Hc. pose proof (columns_differ dt ic mc Hs Hm) as Hne.
  induction Hrel as [|r r' rs rs' Hr _ IH]; [done|].
  destruct (decide (cell r mc = m)) as [Hmk|Hmk].
  - rewrite !filter_cons_True by (by rewrite ?Hr). simpl.
    rewrite Hr by done. f_equal. exact IH.
  - rewrite !filter_cons_False by (by rewrite ?Hr). exact IH.
Qed.

(** The first labels are those of the table as it was read. *)
Lemma first_label_fixed (m : string) (c : nat) :
  c ∈ allele_columns dt →
  first_label (fix_names ic mc dt) mc m c = first_label dt mc m c.
Proof.
  intros Hc. unfold first_label, marker_labels. f_equal. f_equal.
  apply marker_labels_rel; [apply fix_rows_rel|].
  intros ->. apply which_Some in Hs. by eapply not_allele_column.
Qed.

(** The registry of [read], with its loci and their alleles. *)
Lemma read_new_registry :
  ∃ al inds,
    ds (read_new (Some dt)).2 = shape al inds
    ∧ ind_id <$> inds = ind_names_of dt ic mc
    ∧ names_of al = Some <$> markers_of dt mc
    ∧ registers dt mc (allele_columns dt) al
    ∧ built_registry (fix_names ic mc dt) mc = inr al.
Proof.
  destruct (built_registry_ok (fix_names ic mc dt) mc) as (al & Hb & Hn & Hr).
  destruct (read_rows_inv (ind_names_of dt ic mc) al ic mc (allele_columns dt)
              (rows (fix_names ic mc dt)) (NoDup_unique _) [] _
              (loaded_assembling _ (markers_of dt mc) al))
    as [(inds & Hds & Hids & _) _].
  rewrite <- (read_new_run al Hb) in Hds.
  exists al, inds. split; [done|]. split; [done|]. split.
  { rewrite Hn. unfold markers_of. by rewrite fixed_marker_column. }
  split; [|done].
  intros li Hin. destruct (Hr li Hin) as [H1 H2]. split; [done|].
  intros a. rewrite H2.
  split; intros (c & Hc & Hfl); exists c; (split; [done|]).
  - by rewrite <- first_label_fixed.
  - by rewrite first_label_fixed.
Qed.
End DatasetFacts.

(** X8.  On a table with the two required columns, whether the genotype
    assembly returns or throws, the new dataset has one group, group 0, with
    one individual per distinct sample name of the table after the fix of
    the duplicates, in their order, and a registry with one locus per
    distinct marker, in their order. *)
Theorem read_dataset_skeleton (dt : DataTable) (ic mc : nat) :
  VectorTools.which (colNames dt) "Sample Name" = Some ic →
  VectorTools.which (colNames dt) "Marker" = Some mc →
  ∃ inds,
    groups (ds (read_new (Some dt)).2) = [mkGroup 0 inds]
    ∧ ind_id <$> inds = VectorTools.unique (column (fix_names ic mc dt) ic)
    ∧ locus_names (ds (read_new (Some dt)).2)
      = Some <$> VectorTools.unique (column dt mc).
Proof.
  intros Hs Hm.
  destruct (read_new_registry dt ic mc Hs Hm) as (al & inds & -> & Hi & Hn & _).
  exists inds. by repeat split.
Qed.

Lemma read_dataset_skeleton_witness :
  ∃ inds,
    groups (ds (read_new (Some tbl_two_labels)).2) = [mkGroup 0 inds]
    ∧ ind_id <$> inds
      = VectorTools.unique (column (fix_names 0 1 tbl_two_labels) 0)
    ∧ locus_names (ds (read_new (Some tbl_two_labels)).2)
      = Some <$> VectorTools.unique (column tbl_two_labels 1).
Proof. by apply (read_dataset_skeleton tbl_two_labels 0 1). Defined.

(** X9.  The alleles that [read] registers under a locus are, each one
    once, the first calls of the allele columns at the marker of the locus:
    for each allele column, the first cell of the column, in the rows of the
    marker, that is not the empty text.  No other label of the table gets
    into the registry. *)
Theorem registry_first_labels (dt : DataTable) (ic mc : nat) (li : LocusInfo) :
  VectorTools.which (colNames dt) "Sample Name" = Some ic →
  VectorTools.which (colNames dt) "Marker" = Some mc →
  Some li ∈ registry (ds (read_new (Some dt)).2) →
  NoDup (locus_alleles li)
  ∧ ∀ a, a ∈ locus_alleles li
         ↔ ∃ c, c ∈ allele_columns dt
                ∧ first_label dt mc (locus_name li) c = Some a.
Proof.
  intros Hs Hm.
  destruct (read_new_registry dt ic mc Hs Hm) as (al & inds & -> & _ & _ & Hr & _).
  simpl. apply Hr.
Qed.

Lemma registry_first_labels_witness :
  NoDup ["A"]
  ∧ ∀ a, a ∈ ["A"]
         ↔ ∃ c, c ∈ allele_columns tbl_two_labels
                ∧ first_label tbl_two_labels 1 "M" c = Some a.
Proof.
  apply (registry_first_labels tbl_two_labels 0 1 (mkLocusInfo "M" ["A"]));
    [reflexivity..|].
  vm_compute. apply list_elem_of_here.
Defined.

Lemma register_alleles_nil dt cols al :
  GeneMapperCsvExport.register_alleles dt cols [] [] al = inr al.
Proof.
  unfold GeneMapperCsvExport.register_alleles.
  induction cols as [|c cols IH]; [done|]. simpl. exact IH.
Qed.

(** X10.  A table with the two required columns and no row imports without
    an exception: the new dataset gets an empty registry and the group 0
    without any individual. *)
Theorem read_no_rows (dt : DataTable) (ic mc : nat) :
  VectorTools.which (colNames dt) "Sample Name" = Some ic →
  VectorTools.which (colNames dt) "Marker" = Some mc →
  rows dt = [] →
  read_new (Some dt)
  = (inr tt,
     {| ds := {| analyzedLoci := Some []; groups := [mkGroup 0 []] |};
        trace := [EvInitAnalyzedLoci 0; EvAddEmptyGroup 0; EvSetAnalyzedLoci []] |}).
Proof.
  intros Hs Hm Hrows.
  assert (built_registry (fix_names ic mc dt) mc = inr []) as Hb.
  { unfold built_registry, markers_of, column, fix_names. simpl.
    rewrite Hrows. simpl. apply register_alleles_nil. }
  rewrite (read_new_run dt ic mc Hs Hm [] Hb).
  unfold ind_names_of, markers_of, column, fix_names. simpl.
  by rewrite Hrows.
Qed.

Lemma read_no_rows_witness :
  read_new (Some {| colNames := header1; rows := [] |})
  = (inr tt,
     {| ds := {| analyzedLoci := Some []; groups := [mkGroup 0 []] |};
        trace := [EvInitAnalyzedLoci 0; EvAddEmptyGroup 0; EvSetAnalyzedLoci []] |}).
Proof.
  by apply (read_no_rows {| colNames := header1; rows := [] |} 0 1).
Defined.

(** ** When the genotype assembly returns (lines 193-210) *)

Section ReturnFacts.
Import VectorTools GeneMapperCsvExport.
Context (names : list string) (al : list (option LocusInfo)).
Context (ic mc : nat) (cols : list nat).

Lemma getLocusInfoByName_inv m li :
  LocusOps.getLocusInfoByName m al = inr li →
  ∃ i, list_find (LocusOps.named m) al = Some (i, Some li)
       ∧ al !! i = Some (Some li) ∧ locus_name li = m.
Proof.
  unfold LocusOps.getLocusInfoByName.
  destruct (list_find (LocusOps.named m) al) as [[i [li'|]]|] eqn:E; [|done..].
  intros [= ->]. exists i. split; [done|].
  apply list_find_Some in E as (Hi & Hn & _). split; [done|]. by inversion Hn.
Qed.

Lemma getLocusInfoByName_ok m :
  Some m ∈ names_of al → ∃ li, LocusOps.getLocusInfoByName m al = inr li.
Proof.
  intros Hin. unfold LocusOps.getLocusInfoByName.
  destruct (list_find (LocusOps.named m) al) as [[i o]|] eqn:E.
  - apply list_find_Some in E as (Hi & Hn & _).
    destruct o as [li|]; [by exists li|done].
  - exfalso. rewrite list_find_None, Forall_forall in E.
    apply list_elem_of_fmap in Hin as (o & Ho & Hin).
    by apply (E o Hin).
Qed.

Lemma bind_ret {A B : Type} (x : A) (f : A → M B) w : (mret x ≫= f) w = f x w.
Proof. reflexivity. Qed.

Lemma bad_cell_not_ok r e : bad_cell al mc cols r e → ¬ row_ok al mc cols r.
Proof.
  intros (c & Hc & Hne & Hbad) Hok.
  destruct (Hok c Hc Hne) as (li & Hli & Hin).
  destruct Hbad as [Hbad|(li' & Hli' & Hnot & _)]; congruence.
Qed.

(** One allele column of a row (lines 196-200). *)
Lemma allele_key_step r w inds acc c :
  ds w = shape al inds →
  (TextTools.isEmpty (cell r c) = true
   ∧ allele_key r mc acc c w = (inr acc, w))
  ∨ (TextTools.isEmpty (cell r c) = false
     ∧ ∃ li k, LocusOps.getLocusInfoByName (cell r mc) al = inr li
               ∧ which (locus_alleles li) (cell r c) = Some k
               ∧ allele_key r mc acc c w = (inr (acc ++ [k]), w))
  ∨ (TextTools.isEmpty (cell r c) = false
     ∧ ∃ e, allele_key r mc acc c w = (inl e, w)
            ∧ (LocusOps.getLocusInfoByName (cell r mc) al = inl e
               ∨ ∃ li, LocusOps.getLocusInfoByName (cell r mc) al = inr li
                       ∧ which (locus_alleles li) (cell r c) = None
                       ∧ e = LookupError (cell r c))).
Proof.
  intros Hds. unfold allele_key.
  destruct (TextTools.isEmpty (cell r c)) eqn:Hempty; [by left|right].
  rewrite bind_query. unfold DataSetOps.getLocusInfoByName. rewrite Hds. simpl.
  destruct (LocusOps.getLocusInfoByName (cell r mc) al) as [e|li] eqn:Hli.
  { right. split; [done|]. exists e. split; [done|]. by left. }
  rewrite bind_lift. unfold LocusOps.getAlleleInfoKey.
  destruct (which (locus_alleles li) (cell r c)) as [k|] eqn:Hk; simpl.
  - left. split; [done|]. by exists li, k.
  - right. split; [done|]. eexists. split; [done|]. right. by exists li.
Qed.

(** The loop of lines 195-201 on a row: it returns the keys of the calls in
    the locus of the marker when the calls of the row are registered, and
    throws on the first call that is not. *)
Lemma allele_keys_cases r w inds :
  ds w = shape al inds →
  ∀ cs acc,
    (∃ keys,
       M_foldl (allele_key r mc) acc cs w = (inr keys, w)
       ∧ row_ok al mc cs r
       ∧ (keys = acc
          ∨ ∃ li, LocusOps.getLocusInfoByName (cell r mc) al = inr li)
       ∧ (∀ li, LocusOps.getLocusInfoByName (cell r mc) al = inr li →
            keys = acc ++ row_keys li cs r))
    ∨ (∃ e, M_foldl (allele_key r mc) acc cs w = (inl e, w)
            ∧ bad_cell al mc cs r e).
Proof.
  intros Hds. induction cs as [|c cs IH]; intros acc.
  { left. exists acc. split; [done|]. split; [by intros c ?%elem_of_nil|].
    split; [by left|]. intros li _. by rewrite app_nil_r. }
  simpl.
  destruct (allele_key_step r w inds acc c Hds)
    as [[Hempty Hstep]|[(Hempty & li & k & Hli & Hk & Hstep)
                       |(Hempty & e & Hstep & Hbad)]].
  - erewrite bind_inr by done.
    destruct (IH acc) as [(keys & Hrun & Hok & Hkeys & Hval)|(e & Hrun & Hbad)].
    + left. exists keys. split; [done|]. split; [|split; [done|]].
      * intros c' [->|Hc']%elem_of_cons Hne; [congruence|by apply Hok].
      * intros li Hli. unfold row_keys. simpl. rewrite Hempty. by apply Hval.
    + right. exists e. split; [done|].
      destruct Hbad as (c' & Hc' & Hbad). exists c'. split; [by right|done].
  - erewrite bind_inr by done.
    destruct (IH (acc ++ [k]))
      as [(keys & Hrun & Hok & Hkeys & Hval)|(e & Hrun & Hbad)].
    + left. exists keys. split; [done|]. split; [|split; [right; by exists li|]].
      * intros c' [->|Hc']%elem_of_cons Hne; [|by apply Hok].
        exists li. split; [done|]. apply which_Some in Hk.
        by eapply list_elem_of_lookup_2.
      * intros li' Hli'. assert (li' = li) as -> by congruence.
        unfold row_keys. simpl. rewrite Hempty, Hk. simpl.
        rewrite (Hval li Hli). by rewrite <- app_assoc.
    + right. exists e. split; [done|].
      destruct Hbad as (c' & Hc' & Hbad). exists c'. split; [by right|done].
  - erewrite bind_inl by done. right. exists e. split; [done|].
    exists c. split; [by left|]. split; [done|].
    destruct Hbad as [Hbad|(li & Hli & Hk & ->)]; [by left|].
    right. exists li. split; [done|]. split; [|done]. by apply which_None.
Qed.

Lemma find_in_names (inds : list Individual) name :
  name ∈ (ind_id <$> inds) →
  ∃ p ind, list_find (DataSetOps.same_id name) inds = Some (p, ind).
Proof.
  intros (ind & -> & Hin)%list_elem_of_fmap.
  destruct (list_find (DataSetOps.same_id (ind_id ind)) inds) as [[p i]|] eqn:E;
    [eauto|].
  exfalso. rewrite list_find_None, Forall_forall in E. by apply (E ind Hin).
Qed.

Lemma storage_ok_insert seen (inds : list Individual) p ind' :
  Forall (storage_ok al ic mc cols seen) inds →
  storage_ok al ic mc cols seen ind' →
  Forall (storage_ok al ic mc cols seen) (<[p := ind']> inds).
Proof.
  intros Hall Hnew. apply Forall_lookup. intros q ind Hq.
  apply list_lookup_insert_Some in Hq as [(_ & <- & _)|[_ Hq]]; [done|].
  by eapply Forall_lookup_1.
Qed.

Lemma ids_insert (inds : list Individual) p ind ind' :
  inds !! p = Some ind → ind_id ind' = ind_id ind →
  ind_id <$> <[p := ind']> inds = ind_id <$> inds.
Proof.
  intros Hp Hid. rewrite list_fmap_insert, Hid. apply list_insert_id.
  by rewrite list_lookup_fmap, Hp.
Qed.

(** More rows read, weaker statement. *)
Lemma assembled_more seen seen' w :
  (∀ r, r ∈ seen → r ∈ seen') →
  assembled names al ic mc cols seen w → assembled names al ic mc cols seen' w.
Proof.
  intros Hsub (inds & Hds & Hids & Hst). exists inds. split; [done|].
  split; [done|]. eapply Forall_impl; [exact Hst|].
  intros ind Hind gt Hgt. destruct (Hind gt Hgt) as [Hlen Hslots].
  split; [done|]. intros l ma Hl.
  destruct (Hslots l ma Hl) as (r & li & Hr & Hrest).
  exists r, li. split; [by apply Hsub|done].
Qed.

(** Lines 206-207 return for a registered individual, which then has its
    storage. *)
Lemma init_genotype_assembled seen name w :
  assembled names al ic mc cols seen w → name ∈ names →
  ∃ w' inds p ind,
    init_genotype name w = (inr tt, w')
    ∧ assembled names al ic mc cols seen w'
    ∧ ds w' = shape al inds
    ∧ list_find (DataSetOps.same_id name) inds = Some (p, ind)
    ∧ hasGenotype ind = true.
Proof.
  intros (inds & Hds & Hids & Hst) Hin.
  destruct (find_in_names inds name) as (p & ind & Hfind); [by rewrite Hids|].
  destruct (find_individual al inds name w Hds) as [Hby Hpos].
  unfold init_genotype. rewrite bind_query, Hby, Hfind. simpl.
  pose proof Hfind as (Hp & Hid & Hbefore)%list_find_Some.
  destruct (hasGenotype ind) eqn:Hg.
  - exists w, inds, p, ind. repeat split; try done. by exists inds.
  - rewrite bind_query, Hpos, Hfind. simpl.
    unfold update, DataSetOps.initIndividualGenotypeInGroup.
    rewrite Hds. simpl. rewrite Hp. simpl.
    set (ind' := {| ind_id := ind_id ind;
                    ind_genotype := Some (replicate (length al) None) |}).
    assert (storage_ok al ic mc cols seen ind') as Hnew.
    { intros gt [= <-]. split; [apply length_replicate|].
      intros l ma [? _]%lookup_replicate. done. }
    exists {| ds := shape al (<[p := ind']> inds);
              trace := trace w ++ [EvInitGenotype 0 p] |},
      (<[p := ind']> inds), p, ind'.
    split; [done|]. split.
    { exists (<[p := ind']> inds). split; [done|]. split.
      - by rewrite (ids_insert inds p ind ind').
      - by apply storage_ok_insert. }
    split; [done|]. split; [|done].
    apply list_find_Some. split.
    { apply list_lookup_insert_eq. by eapply lookup_lt_Some. }
    split; [done|]. intros j y Hj Hlt.
    rewrite list_lookup_insert_ne in Hj by lia. by eapply Hbefore.
Qed.

(** Lines 208-209 return for an individual with its storage, when the
    marker has its locus. *)
Lemma set_genotype_assembled seen name marker ma w inds p ind :
  assembled names al ic mc cols seen w → ds w = shape al inds →
  list_find (DataSetOps.same_id name) inds = Some (p, ind) →
  hasGenotype ind = true →
  (ma ≠ [] →
   ∃ li, LocusOps.getLocusInfoByName marker al = inr li
         ∧ ∀ l, al !! l = Some (Some li) →
                slot_ok al ic mc cols seen (ind_id ind) l ma) →
  ∃ w', set_genotype name marker ma w = (inr tt, w')
        ∧ assembled names al ic mc cols seen w'.
Proof.
  intros Hw Hds Hfind Hg Hma.
  destruct ma as [|k ma]; [by exists w|].
  destruct Hma as (li & Hli & Hslot); [done|].
  apply getLocusInfoByName_inv in Hli as (l & Hl & Hal & _).
  specialize (Hslot l Hal).
  destruct Hw as (inds' & Hds' & Hids & Hst).
  rewrite Hds in Hds'. injection Hds' as <-.
  destruct (find_individual al inds name w Hds) as [_ Hpos].
  pose proof Hfind as (Hp & Hid & _)%list_find_Some.
  unfold set_genotype. rewrite bind_query, Hpos, Hfind. simpl.
  rewrite bind_query, Hds. simpl. rewrite bind_lift.
  unfold LocusOps.getLocusInfoPosition. rewrite Hl. simpl.
  unfold update, DataSetOps.setIndividualMonolocusGenotypeInGroup.
  rewrite Hds. simpl. rewrite Hp. simpl.
  unfold hasGenotype in Hg.
  destruct (ind_genotype ind) as [gt|] eqn:Hgt; [|done]. simpl.
  destruct (Forall_lookup_1 _ _ _ _ Hst Hp gt Hgt) as [Hlen Hslots].
  rewrite decide_True by (rewrite Hlen; by eapply lookup_lt_Some). simpl.
  eexists. split; [done|].
  eexists. split; [done|]. split.
  - by rewrite (ids_insert inds p ind).
  - apply storage_ok_insert; [done|].
    intros gt' [= <-]. split; [by rewrite length_insert|].
    intros l' ma' [(-> & [= <-] & _)|[_ Hl']]%list_lookup_insert_Some.
    + done.
    + by apply Hslots.
Qed.

(** One row: it returns when its calls are registered, and throws on the
    first call that is not; the state stays one of the assembly. *)
Lemma read_row_cases seen r w :
  assembled names al ic mc cols seen w → cell r ic ∈ names →
  (row_ok al mc cols r
   ∧ ∃ w', read_row ic mc cols r w = (inr tt, w')
           ∧ assembled names al ic mc cols (r :: seen) w')
  ∨ (∃ e, bad_cell al mc cols r e ∧ read_row ic mc cols r w = (inl e, w)).
Proof.
  intros Hw Hin. pose proof Hw as (inds & Hds & _).
  unfold read_row.
  destruct (allele_keys_cases r w inds Hds cols [])
    as [(keys & Hrun & Hok & Hkeys & Hval)|(e & Hrun & Hbad)]; last first.
  { right. exists e. split; [done|]. by erewrite bind_inl. }
  left. split; [done|]. erewrite bind_inr by done.
  assert (assembled names al ic mc cols (r :: seen) w) as Hw'.
  { eapply assembled_more; [|exact Hw]. intros r' Hr'. by right. }
  destruct (init_genotype_assembled (r :: seen) (cell r ic) w Hw' Hin)
    as (w1 & inds1 & p & ind & Hinit & Hw1 & Hds1 & Hfind & Hg).
  erewrite bind_inr by done.
  apply (set_genotype_assembled _ _ _ _ _ inds1 p ind); try done.
  intros Hne. destruct Hkeys as [->|[li Hli]]; [done|].
  exists li. split; [done|]. intros l Hl.
  pose proof Hfind as (_ & Hid & _)%list_find_Some.
  pose proof Hli as (i & _ & _ & Hname)%getLocusInfoByName_inv.
  exists r, li. split; [by left|]. split; [by rewrite Hid|].
  split; [done|]. split; [done|]. split.
  - intros c Hc Hcne. destruct (Hok c Hc Hcne) as (li' & Hli' & Hin').
    congruence.
  - split; [|done]. by rewrite (Hval li Hli).
Qed.

(** All the rows. *)
Lemma read_rows_cases rs :
  ∀ seen w,
    assembled names al ic mc cols seen w → (∀ r, r ∈ rs → cell r ic ∈ names) →
    assembled names al ic mc cols (rs ++ seen)
      (forM_ rs (read_row ic mc cols) w).2
    ∧ ((forM_ rs (read_row ic mc cols) w).1 = inr tt
       ∧ (∀ r, r ∈ rs → row_ok al mc cols r)
       ∨ ∃ e r, (forM_ rs (read_row ic mc cols) w).1 = inl e
                ∧ r ∈ rs ∧ bad_cell al mc cols r e).
Proof.
  induction rs as [|r rs IH]; intros seen w Hw Hin; simpl.
  { split; [done|]. left. split; [done|]. by intros r ?%elem_of_nil. }
  destruct (read_row_cases seen r w Hw)
    as [(Hok & w1 & Hrun & Hw1)|(e & Hbad & Hrun)]; [apply Hin; by left|..].
  - erewrite bind_inr by done.
    destruct (IH (r :: seen) w1 Hw1) as [Hinv Hres];
      [intros r' Hr'; apply Hin; by right|].
    split.
    { eapply assembled_more; [|exact Hinv].
      intros r'. rewrite !elem_of_app, !elem_of_cons, !elem_of_app. tauto. }
    destruct Hres as [[Hret Hall]|(e & r' & Hthrow & Hr' & Hbad)].
    + left. split; [done|]. by intros r' [->|?]%elem_of_cons; [|apply Hall].
    + right. exists e, r'. split; [done|]. split; [by right|done].
  - erewrite bind_inl by done. split.
    { eapply assembled_more; [|exact Hw]. intros r' Hr'.
      rewrite elem_of_cons, elem_of_app. tauto. }
    right. exists e, r. split; [done|]. split; [by left|done].
Qed.

Lemma loaded_assembled markers :
  assembled names al ic mc cols [] (loaded names markers al).
Proof.
  exists (new_individual <$> names). split; [done|]. split.
  - rewrite <- list_fmap_compose. apply list_fmap_id.
  - apply Forall_fmap, Forall_forall. intros n _ gt. done.
Qed.

(** A genotype from a row is a genotype of its locus. *)
Lemma slot_ok_genotype seen id l ma :
  slot_ok al ic mc cols seen id l ma → genotype_ok al l ma.
Proof.
  intros (r & li & _ & _ & Hl & _ & _ & -> & Hne).
  split; [done|]. split; [apply NoDup_unique|]. exists li. split; [done|].
  apply Forall_forall. intros k. rewrite elem_of_unique. unfold row_keys.
  intros (c & _ & Hk)%list_elem_of_omap.
  destruct (TextTools.isEmpty (cell r c)); [done|].
  apply which_Some in Hk. by eapply lookup_lt_Some.
Qed.

(** The alleles at the keys of a genotype from a row are the calls of the
    row. *)
Lemma slot_ok_decode r li ma :
  (∀ c, c ∈ cols → TextTools.isEmpty (cell r c) = false →
        cell r c ∈ locus_alleles li) →
  ma = unique (row_keys li cols r) →
  ∀ a, (∃ k, k ∈ ma ∧ locus_alleles li !! k = Some a)
       ↔ ∃ c, c ∈ cols ∧ TextTools.isEmpty (cell r c) = false ∧ cell r c = a.
Proof.
  intros Hreg -> a. split.
  - intros (k & Hk & Ha). rewrite elem_of_unique in Hk.
    apply list_elem_of_omap in Hk as (c & Hc & Hk).
    destruct (TextTools.isEmpty (cell r c)) eqn:He; [done|].
    apply which_Some in Hk. exists c. split; [done|]. split; [done|]. congruence.
  - intros (c & Hc & He & <-).
    destruct (which_is_Some (locus_alleles li) (cell r c)) as [k Hk];
      [by apply Hreg|].
    exists k. split; [|by apply which_Some].
    rewrite elem_of_unique. apply list_elem_of_omap. exists c.
    split; [done|]. by rewrite He.
Qed.
End ReturnFacts.

Section OutcomeFacts.
Import VectorTools GeneMapperCsvExport.
Context (dt : DataTable) (ic mc : nat).
Context (Hs : which (colNames dt) "Sample Name" = Some ic).
Context (Hm : which (colNames dt) "Marker" = Some mc).

(** A row after the fix and the row of the table at its place have the same
    marker and the same calls. *)
Lemma fixed_row_cells (r r' : list string) :
  (∀ j, j ≠ ic → cell r' j = cell r j) →
  cell r' mc = cell r mc
  ∧ ∀ c, c ∈ allele_columns dt → cell r' c = cell r c.
Proof.
  intros Hrel. split.
  - apply Hrel. intros Heq. by apply (columns_differ dt ic mc Hs Hm).
  - intros c Hc. apply Hrel. intros ->.
    apply which_Some in Hs. by eapply not_allele_column.
Qed.

Lemma fixed_rows_back (r' : list string) :
  r' ∈ rows (fix_names ic mc dt) →
  ∃ r, r ∈ rows dt ∧ ∀ j, j ≠ ic → cell r' j = cell r j.
Proof.
  intros [i Hi]%list_elem_of_lookup.
  destruct (Forall2_lookup_r _ _ _ _ _ (fix_rows_rel ic mc (rows dt) ∅) Hi)
    as (r & Hr & Hrel).
  exists r. split; [by eapply list_elem_of_lookup_2|done].
Qed.

Lemma fixed_rows_forth (r : list string) :
  r ∈ rows dt →
  ∃ r', r' ∈ rows (fix_names ic mc dt) ∧ ∀ j, j ≠ ic → cell r' j = cell r j.
Proof.
  intros [i Hi]%list_elem_of_lookup.
  destruct (Forall2_lookup_l _ _ _ _ _ (fix_rows_rel ic mc (rows dt) ∅) Hi)
    as (r' & Hr & Hrel).
  exists r'. split; [by eapply list_elem_of_lookup_2|done].
Qed.

(** The calls of a row are registered, said on the table. *)
Lemma row_ok_table (al : list (option LocusInfo)) (r r' : list string) :
  names_of al = Some <$> markers_of dt mc →
  registers dt mc (allele_columns dt) al →
  r ∈ rows dt → (∀ j, j ≠ ic → cell r' j = cell r j) →
  row_ok al mc (allele_columns dt) r'
  ↔ ∀ c, c ∈ allele_columns dt → TextTools.isEmpty (cell r c) = false →
         ∃ c', c' ∈ allele_columns dt
               ∧ first_label dt mc (cell r mc) c' = Some (cell r c).
Proof.
  intros Hn Hreg Hr Hrel.
  destruct (fixed_row_cells r r' Hrel) as [Hmk Hcells].
  assert (Some (cell r mc) ∈ names_of al) as Hin.
  { rewrite Hn. apply list_elem_of_fmap_2. unfold markers_of.
    rewrite elem_of_unique. unfold column. apply list_elem_of_fmap. by exists r. }
  unfold row_ok. rewrite Hmk.
  split; intros H c Hc Hne.
  - rewrite <- (Hcells c Hc) in Hne |- *.
    destruct (H c Hc Hne) as (li & Hli & Hin').
    apply getLocusInfoByName_inv in Hli as (i & _ & Hi & Hname).
    assert (Some li ∈ al) as Hli by (by eapply list_elem_of_lookup_2).
    destruct (Hreg li Hli) as [_ Hiff]. rewrite <- Hname. by apply Hiff.
  - rewrite (Hcells c Hc) in Hne |- *.
    destruct (getLocusInfoByName_ok al (cell r mc) Hin) as [li Hli].
    exists li. split; [done|].
    apply getLocusInfoByName_inv in Hli as (i & _ & Hi & Hname).
    assert (Some li ∈ al) as Hli by (by eapply list_elem_of_lookup_2).
    destruct (Hreg li Hli) as [_ Hiff]. apply Hiff. rewrite Hname. by apply H.
Qed.

(** The outcome of [read] in a new dataset. *)
Lemma read_new_outcome :
  ∃ al,
    names_of al = Some <$> markers_of dt mc
    ∧ registers dt mc (allele_columns dt) al
    ∧ assembled (ind_names_of dt ic mc) al ic mc (allele_columns dt)
        (rows (fix_names ic mc dt)) (read_new (Some dt)).2
    ∧ ((read_new (Some dt)).1 = inr tt
       ∧ (∀ r, r ∈ rows (fix_names ic mc dt) →
               row_ok al mc (allele_columns dt) r)
       ∨ ∃ e r, (read_new (Some dt)).1 = inl e
                ∧ r ∈ rows (fix_names ic mc dt)
                ∧ bad_cell al mc (allele_columns dt) r e).
Proof.
  destruct (read_new_registry dt ic mc Hs Hm)
    as (al & _ & _ & _ & Hn & Hreg & Hb).
  exists al. split; [done|]. split; [done|].
  rewrite (read_new_run dt ic mc Hs Hm al Hb).
  rewrite <- (app_nil_r (rows (fix_names ic mc dt))) at 1.
  apply read_rows_cases; [apply loaded_assembled|].
  intros r Hr. unfold ind_names_of. rewrite elem_of_unique.
  unfold column. apply list_elem_of_fmap. by exists r.
Qed.
End OutcomeFacts.

Lemma shape_individuals al inds : individuals (shape al inds) = inds.
Proof. unfold individuals. simpl. apply app_nil_r. Qed.

(** X11.  In the dataset that [read] fills, the genotype storage of an
    individual has one slot per locus of the registry, and a slot that was
    written holds at least one allele key, no key twice, each key the
    position of an allele in the locus of that slot. *)
Theorem genotype_storage_valid (dt : DataTable) (ind : Individual)
    (gt : list (option (list nat))) :
  ind ∈ individuals (ds (read_new (Some dt)).2) →
  ind_genotype ind = Some gt →
  length gt = length (registry (ds (read_new (Some dt)).2))
  ∧ ∀ l ma, gt !! l = Some (Some ma) →
      genotype_ok (registry (ds (read_new (Some dt)).2)) l ma.
Proof.
  destruct (read_new_cases dt)
    as [(col & _ & _ & H)|(ic & mc & _ & Hs & Hm & _)].
  { unfold read_new. rewrite H. simpl. by intros ?%elem_of_nil. }
  destruct (read_new_outcome dt ic mc Hs Hm)
    as (al & _ & _ & (inds & -> & _ & Hst) & _).
  rewrite shape_individuals. simpl. intros Hin Hgt.
  rewrite Forall_forall in Hst. destruct (Hst ind Hin gt Hgt) as [Hlen Hslots].
  split; [done|]. intros l ma Hl. eapply slot_ok_genotype. by apply Hslots.
Qed.

Lemma genotype_storage_valid_witness :
  length [Some [0]] = length (registry (ds (read_new (Some tbl_single)).2))
  ∧ ∀ l ma, [Some [0]] !! l = Some (Some ma) →
      genotype_ok (registry (ds (read_new (Some tbl_single)).2)) l ma.
Proof.
  apply (genotype_storage_valid tbl_single (mkIndividual "s" (Some [Some [0]])));
    [|reflexivity].
  vm_compute. apply list_elem_of_here.
Defined.

(** X12.  On a table with the two required columns, [read] returns exactly
    when every call of the table (a cell of an allele column that is not
    blank) is the first call of some allele column at the marker of its
    row. *)
Theorem read_returns_iff (dt : DataTable) (ic mc : nat) :
  VectorTools.which (colNames dt) "Sample Name" = Some ic →
  VectorTools.which (colNames dt) "Marker" = Some mc →
  (read_new (Some dt)).1 = inr tt ↔ calls_registered dt mc.
Proof.
  intros Hs Hm.
  destruct (read_new_outcome dt ic mc Hs Hm)
    as (al & Hn & Hreg & _ & [[Hret Hall]|(e & r' & Hthrow & Hr' & Hbad)]).
  - split; [intros _|done]. intros r Hr.
    destruct (fixed_rows_forth dt ic mc r Hr) as (r' & Hr' & Hrel).
    apply (row_ok_table dt ic mc Hs Hm al r r' Hn Hreg Hr Hrel). by apply Hall.
  - split; [by rewrite Hthrow|]. intros Hcalls. exfalso.
    apply (bad_cell_not_ok _ _ _ _ _ Hbad).
    destruct (fixed_rows_back dt ic mc r' Hr') as (r & Hr & Hrel).
    apply (row_ok_table dt ic mc Hs Hm al r r' Hn Hreg Hr Hrel). by apply Hcalls.
Qed.

Lemma read_returns_iff_witness :
  (read_new (Some tbl_single)).1 = inr tt ↔ calls_registered tbl_single 1.
Proof. by apply (read_returns_iff tbl_single 0 1). Defined.

(** X13.  On a table with the two required columns, the only exception of
    [read] is the look-up error of a call: a cell of an allele column that
    is not blank and that is not the first call of any allele column at the
    marker of its row. *)
Theorem read_throws_unregistered (dt : DataTable) (ic mc : nat) (e : Exception) :
  VectorTools.which (colNames dt) "Sample Name" = Some ic →
  VectorTools.which (colNames dt) "Marker" = Some mc →
  (read_new (Some dt)).1 = inl e →
  ∃ r c,
    r ∈ rows dt ∧ c ∈ allele_columns dt
    ∧ TextTools.isEmpty (cell r c) = false
    ∧ e = LookupError (cell r c)
    ∧ ∀ c', c' ∈ allele_columns dt →
            first_label dt mc (cell r mc) c' ≠ Some (cell r c).
Proof.
  intros Hs Hm Hthrow.
  destruct (read_new_outcome dt ic mc Hs Hm)
    as (al & Hn & Hreg & _ & [[Hret _]|(e' & r' & Hthrow' & Hr' & Hbad)]);
    [congruence|].
  assert (e' = e) as -> by congruence.
  destruct (fixed_rows_back dt ic mc r' Hr') as (r & Hr & Hrel).
  destruct (fixed_row_cells dt ic mc Hs Hm r r' Hrel) as [Hmk Hcells].
  destruct Hbad as (c & Hc & Hne & Hbad).
  rewrite Hmk, (Hcells c Hc) in Hbad. rewrite (Hcells c Hc) in Hne.
  exists r, c. split; [done|]. split; [done|]. split; [done|].
  assert (Some (cell r mc) ∈ names_of al) as Hin.
  { rewrite Hn. apply list_elem_of_fmap_2. unfold markers_of.
    rewrite elem_of_unique. unfold column. apply list_elem_of_fmap. by exists r. }
  destruct Hbad as [Hbad|(li & Hli & Hnot & ->)].
  { destruct (getLocusInfoByName_ok al (cell r mc) Hin) as [li Hli]. congruence. }
  split; [done|]. intros c' Hc' Hfl. apply Hnot.
  apply getLocusInfoByName_inv in Hli as (i & _ & Hi & Hname).
  assert (Some li ∈ al) as Hli by (by eapply list_elem_of_lookup_2).
  destruct (Hreg li Hli) as [_ Hiff]. apply Hiff. rewrite Hname. by exists c'.
Qed.

Lemma read_throws_unregistered_witness :
  ∃ r c,
    r ∈ rows tbl_two_labels ∧ c ∈ allele_columns tbl_two_labels
    ∧ TextTools.isEmpty (cell r c) = false
    ∧ LookupError "B" = LookupError (cell r c)
    ∧ ∀ c', c' ∈ allele_columns tbl_two_labels →
            first_label tbl_two_labels 1 (cell r 1) c' ≠ Some (cell r c).
Proof.
  by apply (read_throws_unregistered tbl_two_labels 0 1 (LookupError "B")).
Defined.

(** X14.  Every genotype that [read] stores comes from a row of the renamed
    table: a row of that individual, at the marker of the locus of the slot,
    and the alleles that the keys of the genotype name in that locus are
    exactly the calls of this row that are not blank. *)
Theorem genotype_decodes_row (dt : DataTable) (ic mc : nat) (ind : Individual)
    (gt : list (option (list nat))) (l : nat) (ma : list nat) :
  VectorTools.which (colNames dt) "Sample Name" = Some ic →
  VectorTools.which (colNames dt) "Marker" = Some mc →
  ind ∈ individuals (ds (read_new (Some dt)).2) →
  ind_genotype ind = Some gt →
  gt !! l = Some (Some ma) →
  ∃ r li,
    r ∈ rows (fix_names ic mc dt) ∧ cell r ic = ind_id ind
    ∧ registry (ds (read_new (Some dt)).2) !! l = Some (Some li)
    ∧ locus_name li = cell r mc
    ∧ ∀ a, (∃ k, k ∈ ma ∧ locus_alleles li !! k = Some a)
           ↔ ∃ c, c ∈ allele_columns dt
                  ∧ TextTools.isEmpty (cell r c) = false ∧ cell r c = a.
Proof.
  intros Hs Hm.
  destruct (read_new_outcome dt ic mc Hs Hm)
    as (al & _ & _ & (inds & -> & _ & Hst) & _).
  rewrite shape_individuals. simpl. intros Hin Hgt Hl.
  rewrite Forall_forall in Hst. destruct (Hst ind Hin gt Hgt) as [_ Hslots].
  destruct (Hslots l ma Hl) as (r & li & Hr & Hid & Hli & Hname & Hreg & Hma & _).
  exists r, li. repeat (split; [done|]).
  by apply slot_ok_decode.
Qed.

Lemma genotype_decodes_row_witness :
  ∃ r li,
    r ∈ rows (fix_names 0 1 tbl_single) ∧ cell r 0 = "s"
    ∧ registry (ds (read_new (Some tbl_single)).2) !! 0 = Some (Some li)
    ∧ locus_name li = cell r 1
    ∧ ∀ a, (∃ k, k ∈ [0] ∧ locus_alleles li !! k = Some a)
           ↔ ∃ c, c ∈ allele_columns tbl_single
                  ∧ TextTools.isEmpty (cell r c) = false ∧ cell r c = a.
Proof.
  apply (genotype_decodes_row tbl_single 0 1
           (mkIndividual "s" (Some [Some [0]])) [Some [0]] 0 [0]);
    [reflexivity|reflexivity| |reflexivity|reflexivity].
  vm_compute. apply list_elem_of_here.
Defined.
